(** * QtQuoridor: the rules engine of [main.py] (class [Game]) in Rocq

    The development embeds the engine part of [main.py]: the [Position]
    named tuple, the module constants [MOVES], [PLAYER_STARTS] and
    [PLAYER_HAS_WIN], and the class [Game] with its methods [has_win],
    [next_turn], [naive_neighbors], [can_exit], [add_wall] and [move_to].
    The Qt widgets are not modelled.

    Conventions of the embedding:
    - a [Position] is a pair of integers (the source derives it from
      [NamedTuple], and uses it as a tuple: [0 in diff]);
    - Python sets of positions are [gset Position]; Python lists are lists,
      indexed with [!!], an index out of range raises [IndexError];
    - a method is a computation [M A]: it takes the object's state and gives
      back either a returned value or a raised exception, together with the
      state the object is left in;
    - the return value [None] of [add_wall] and [move_to] (the action is
      accepted) is [None], an error message [msg] is [Some msg];
    - [logging] calls are left out. *)

From Stdlib Require Import ZArith Lia Ascii String.
From stdpp Require Import gmap list strings.

Local Open Scope Z_scope.

(** ** Positions *)

Abbreviation Position := (Z * Z)%type.

Definition row (p : Position) : Z := p.1.
Definition col (p : Position) : Z := p.2.

(** [Position.in_grid] *)
Definition in_grid (self : Position) : bool :=
  ((0 <=? row self) && (row self <? 9)) && ((0 <=? col self) && (col self <? 9)).

(** [Position.__add__], [__sub__], [__mul__], [__floordiv__]; Python's [//]
    rounds towards minus infinity, as [Z.div] does for a positive divisor. *)
Definition pos_add (self other : Position) : Position :=
  (row self + row other, col self + col other).
Definition pos_sub (self other : Position) : Position :=
  (row self - row other, col self - col other).
Definition pos_mul (self : Position) (n : Z) : Position :=
  (row self * n, col self * n).
Definition pos_floordiv (self : Position) (n : Z) : Position :=
  (row self / n, col self / n).

Declare Scope pos_scope.
Delimit Scope pos_scope with pos.
Infix "+" := pos_add : pos_scope.
Infix "-" := pos_sub : pos_scope.
Infix "*" := pos_mul : pos_scope.
Infix "//" := pos_floordiv (at level 40, left associativity) : pos_scope.

(** [Position.manhattan]: [sum(map(abs, self - other))] *)
Definition manhattan (self other : Position) : Z :=
  let d := (self - other)%pos in Z.abs (row d) + Z.abs (col d).

(** Moves: North, South, West, East *)
Definition MOVES : list Position := [(-1, 0); (1, 0); (0, -1); (0, 1)].
Definition PLAYER_STARTS : list Position := [(8, 4); (0, 4)].
Definition PLAYER_HAS_WIN : list (Position → bool) :=
  [ (λ pos, row pos =? 0); (λ pos, row pos =? 8) ].

(** ** Messages *)

Local Open Scope string_scope.

(** The [%] operator on a template and one string argument: [%s] is replaced
    by the argument and [%%] by a percent sign.  Every template below has
    exactly one [%s]. *)
Fixpoint py_format (template arg : string) : string :=
  match template with
  | EmptyString => EmptyString
  | String "%"%char (String "s"%char rest) => arg ++ py_format rest arg
  | String "%"%char (String "%"%char rest) => String "%"%char (py_format rest arg)
  | String c rest => String c (py_format rest arg)
  end.

(** The newline character of the Python literals. *)
Definition nl : string := String "010"%char EmptyString.

Definition ERROR_BLOCK_HIM := "You can not entirely block another player.".
Definition ERROR_BLOCK_YOU := "You can not entirely block yourself.".
Definition ERROR_FAR_AWAY := "You can not go that far.".
Definition ERROR_GHOST := "You can not go through a wall.".
Definition ERROR_JUMP := "To jump %s an enemy, you need %%s.".
Definition ERROR_NO_WALL := "You can not put up a wall you do not have.".
Definition ERROR_NOTHING := "You must move or add a wall (if you have).".
Definition ERROR_WALL_INTERSECTION := "You can not create a wall twice.".

(** The arguments given to the jump templates in [move_to]. *)
Definition NEED_BETWEEN_YOU := "no wall" ++ nl ++ "between you and him/her".
Definition NEED_BEHIND_OVER := "no wall behind him/her".
Definition NEED_BEHIND_BESIDE := "a wall behind him/her".
Definition NEED_BETWEEN_DEST := "no wall" ++ nl ++ "between him/her and the destination".

Local Close Scope string_scope.

(** ** The state of a [Game] and the monad of its methods *)

Record Game := mkGame {
  nb_players : nat;
  players_positions : list Position;
  wall_parts : gset Position;
  index : nat;
  count_walls : list Z;
}.

(** [Game.__init__] *)
Definition init : Game :=
  let nb := 2%nat in
  {| nb_players := nb;
     players_positions := PLAYER_STARTS;
     wall_parts := ∅;
     index := 0%nat;
     count_walls := replicate nb (20 / Z.of_nat nb) |}.

Inductive PyExc := AssertionError | IndexError | ZeroDivisionError.

(** A computation that only reads: a value or a raised exception. *)
Definition Exc (A : Type) : Type := PyExc + A.

Definition ebind {A B} (r : Exc A) (k : A → Exc B) : Exc B :=
  match r with inl e => inl e | inr a => k a end.

(** [l[i]] *)
Definition getitem {A} (l : list A) (i : nat) : Exc A :=
  match l !! i with Some a => inr a | None => inl IndexError end.

(** A method: state in, outcome and state out.  A raised exception keeps the
    state reached so far, as in Python. *)
Definition M (A : Type) : Type := Game → Exc A * Game.

Definition ret {A} (a : A) : M A := λ self, (inr a, self).
Definition raise {A} (e : PyExc) : M A := λ self, (inl e, self).
Definition bind {A B} (m : M A) (k : A → M B) : M B :=
  λ self, match m self with
          | (inl e, self') => (inl e, self')
          | (inr a, self') => k a self'
          end.
Definition get : M Game := λ self, (inr self, self).
Definition put (self' : Game) : M unit := λ _, (inr tt, self').
Definition lift {A} (r : Exc A) : M A := λ self, (r, self).
Definition py_assert (b : bool) : M unit :=
  if b then ret tt else raise AssertionError.

Notation "'let?' x ':=' r 'in' k" := (ebind r (λ x, k))
  (at level 10, x name, r at level 100, k at level 200, only parsing).
Notation "'let*' x ':=' m 'in' k" := (bind m (λ x, k))
  (at level 10, x name, m at level 100, k at level 200, only parsing).
Notation "m ';;' k" := (bind m (λ _, k))
  (at level 100, k at level 200, right associativity, only parsing).

(** ** Methods that only read the state *)

(** [Game.has_win(index=None, position=None)]: an argument left out is [None]. *)
Definition has_win (self : Game) (index0 : option nat) (position : option Position)
  : Exc bool :=
  let index := match index0 with Some i => i | None => index self end in
  let? position := match position with
                   | Some p => inr p
                   | None => getitem (players_positions self) index
                   end in
  let? win := getitem PLAYER_HAS_WIN index in
  inr (win position).

(** [Game.naive_neighbors(position, wall_parts)], the generator as the list of
    what it yields, in order.  The callers that leave an argument out are
    given [players_positions[index]] and [self.wall_parts] at the call. *)
Definition naive_neighbors (position : Position) (wall_parts : gset Position)
  : list Position :=
  filter (λ neighbor, in_grid neighbor = true ∧ (position + neighbor)%pos ∉ wall_parts)
         ((λ move, (position + move)%pos) <$> MOVES).

(** The [for neighbor in ...] loop of [can_exit]: [None] when it returns
    [True], otherwise the stack after the loop.  The top of the Python stack
    (the end of the list) is the head here. *)
Fixpoint can_exit_for (self : Game) (index : nat) (visited : gset Position)
    (neighbors stack : list Position) : Exc (option (list Position)) :=
  match neighbors with
  | [] => inr (Some stack)
  | neighbor :: neighbors =>
      let? won := has_win self (Some index) (Some neighbor) in
      if won then inr None
      else if decide (neighbor ∉ visited)
           then can_exit_for self index visited neighbors (neighbor :: stack)
           else can_exit_for self index visited neighbors stack
  end.

(** The [while stack] loop of [can_exit]; [fuel] bounds the number of
    iterations and [None] means the bound was reached. *)
Fixpoint can_exit_while (fuel : nat) (self : Game) (index : nat)
    (wall_parts : gset Position) (stack : list Position) (visited : gset Position)
  : option (Exc bool) :=
  match fuel with
  | O => None
  | S fuel =>
      match stack with
      | [] => Some (inr false)
      | position :: stack =>
          if decide (position ∉ visited) then
            let visited := {[position]} ∪ visited in
            match can_exit_for self index visited
                    (naive_neighbors position wall_parts) stack with
            | inl e => Some (inl e)
            | inr None => Some (inr true)
            | inr (Some stack) =>
                can_exit_while fuel self index wall_parts stack visited
            end
          else can_exit_while fuel self index wall_parts stack visited
      end
  end.

(** Each iteration pops one position; positions are pushed only by an
    iteration that visits a new position, at most four at a time, and at most
    82 positions are ever visited (the start and the 81 cells).  So
    5 * 82 + 1 bounds the number of iterations, and the loop gets one more
    unit of fuel than that: [can_exit_while_enough] proves that this fuel is
    never used up and that more fuel gives the same answer. *)
Definition can_exit_fuel : nat := 412.

(** [Game.can_exit(index, wall_parts)] *)
Definition can_exit (self : Game) (index : nat) (wall_parts : gset Position)
  : Exc bool :=
  let? player_position := getitem (players_positions self) index in
  match can_exit_while can_exit_fuel self index wall_parts [player_position] ∅ with
  | Some r => r
  | None => inr false
  end.

Global Arguments can_exit : simpl never.

(** ** Methods that change the state *)

Definition set_index (self : Game) (i : nat) : Game :=
  {| nb_players := nb_players self;
     players_positions := players_positions self;
     wall_parts := wall_parts self;
     index := i;
     count_walls := count_walls self |}.

Definition set_players_positions (self : Game) (l : list Position) : Game :=
  {| nb_players := nb_players self;
     players_positions := l;
     wall_parts := wall_parts self;
     index := index self;
     count_walls := count_walls self |}.

Definition set_wall_parts (self : Game) (s : gset Position) : Game :=
  {| nb_players := nb_players self;
     players_positions := players_positions self;
     wall_parts := s;
     index := index self;
     count_walls := count_walls self |}.

Definition set_count_walls (self : Game) (l : list Z) : Game :=
  {| nb_players := nb_players self;
     players_positions := players_positions self;
     wall_parts := wall_parts self;
     index := index self;
     count_walls := l |}.

(** [Game.next_turn] *)
Definition next_turn : M unit :=
  let* self := get in
  let* won := lift (has_win self None None) in
  if negb won then
    if decide (nb_players self = 0%nat) then raise ZeroDivisionError
    else put (set_index self ((index self + 1) `mod` nb_players self)%nat)
  else ret tt.

(** [t[::x]] for a pair [t] and a step [x] that is 1 or -1. *)
Definition slice_step {A} (t : A * A) (x : Z) : A * A :=
  if x <? 0 then (t.2, t.1) else t.

(** The set [wall_parts] that [add_wall] computes from its arguments. *)
Definition new_wall_parts (position : Position) (hv : string) : gset Position :=
  let x := if bool_decide (hv = "v"%string) then -1 else 1 in
  let '(move, other_move) := slice_step ((0, 1), (1, 0)) x in
  list_to_set ((λ n, (position * 2 + other_move + move * n)%pos) <$> seqZ 0 3).

(** The [for index in range(self.nb_players)] loop of [add_wall]: the
    message it returns, or [None] when it runs to its end. *)
Fixpoint add_wall_for (self : Game) (wall_parts : gset Position)
    (indices : list nat) : Exc (option string) :=
  match indices with
  | [] => inr None
  | i :: indices =>
      let? ok := can_exit self i wall_parts in
      if negb ok then
        if decide (i = index self) then inr (Some ERROR_BLOCK_YOU)
        else inr (Some ERROR_BLOCK_HIM)
      else add_wall_for self wall_parts indices
  end.

(** [Game.add_wall(position, hv)] *)
Definition add_wall (position : Position) (hv : string) : M (option string) :=
  py_assert (in_grid position
             && (bool_decide (hv = "h"%string) || bool_decide (hv = "v"%string)));;
  let* self := get in
  let* count := lift (getitem (count_walls self) (index self)) in
  if count =? 0 then ret (Some ERROR_NO_WALL) else
  let parts := new_wall_parts position hv in
  if decide (parts ∩ wall_parts self ≠ ∅) then ret (Some ERROR_WALL_INTERSECTION) else
  let parts := parts ∪ wall_parts self in
  let* blocked := lift (add_wall_for self parts (seq 0 (nb_players self))) in
  match blocked with
  | Some msg => ret (Some msg)
  | None =>
      (* Wall parts accepted, update data. *)
      let self := set_wall_parts self (wall_parts self ∪ parts) in
      let self := set_count_walls self (<[index self := count - 1]> (count_walls self)) in
      put self;;
      next_turn;;
      ret None
  end.

(** The branch [if 0 in diff] of [move_to]: the message it returns, or [None]
    when it falls through. *)
Definition move_to_over (self : Game) (current_position destination diff : Position)
  : option string :=
  let msg := py_format ERROR_JUMP "over" in
  let enemy := (current_position + diff // 2)%pos in
  if decide (enemy ∉ players_positions self) then Some ERROR_FAR_AWAY
  else if decide (enemy ∉ naive_neighbors current_position (wall_parts self))
  then Some (py_format msg NEED_BETWEEN_YOU)
  else if decide (destination ∉ naive_neighbors enemy (wall_parts self))
  then Some (py_format msg NEED_BEHIND_OVER)
  else None.

(** The [else] branch of [if 0 in diff]. *)
Definition move_to_beside (self : Game) (current_position destination : Position)
  : option string :=
  let msg := py_format ERROR_JUMP "beside" in
  let enemies := filter (λ enemy, manhattan current_position enemy = 1)
                        (players_positions self) in
  if decide (enemies = []) then Some ERROR_FAR_AWAY else
  let enemies := filter (λ enemy, manhattan enemy destination = 1) enemies in
  if decide (enemies = []) then Some ERROR_FAR_AWAY else
  let close : gset Position :=
    list_to_set (naive_neighbors current_position (wall_parts self)) in
  let enemies := filter (λ enemy, enemy ∈ close) enemies in
  if decide (enemies = []) then Some (py_format msg NEED_BETWEEN_YOU) else
  let behinds :=
    (λ enemy, (enemy, (current_position + (enemy - current_position) * 2)%pos))
      <$> enemies in
  let enemies :=
    fst <$> filter (λ eb : Position * Position,
                      in_grid eb.2 = false
                      ∨ eb.2 ∉ naive_neighbors eb.1 (wall_parts self)) behinds in
  if decide (enemies = []) then Some (py_format msg NEED_BEHIND_BESIDE) else
  let enemies := filter (λ enemy, destination ∈ naive_neighbors enemy (wall_parts self))
                        enemies in
  if decide (enemies = []) then Some (py_format msg NEED_BETWEEN_DEST) else
  None.

(** The set of the [assert diff in {...}] of [move_to]. *)
Definition JUMP_DIFFS : gset Position :=
  {[ (-2, 0); (0, -2); (0, 2); (2, 0); (-1, -1); (-1, 1); (1, -1); (1, 1) ]}.

(** [Game.move_to(destination)] *)
Definition move_to (destination : Position) : M (option string) :=
  py_assert (in_grid destination);;
  let* self := get in
  let* current_position := lift (getitem (players_positions self) (index self)) in
  let distance := manhattan current_position destination in
  if distance =? 0 then ret (Some ERROR_NOTHING) else
  if 2 <? distance then ret (Some ERROR_FAR_AWAY) else
  if (distance =? 1)
     && bool_decide (destination ∉ naive_neighbors current_position (wall_parts self))
  then ret (Some ERROR_GHOST) else
  let* jump :=
    (if distance =? 2 then
       let diff := (destination - current_position)%pos in
       py_assert (bool_decide (diff ∈ JUMP_DIFFS));;
       if bool_decide (0 ∈ [row diff; col diff])
       then ret (move_to_over self current_position destination diff)
       else ret (move_to_beside self current_position destination)
     else ret None) in
  match jump with
  | Some msg => ret (Some msg)
  | None =>
      put (set_players_positions self
             (<[index self := destination]> (players_positions self)));;
      next_turn;;
      ret None
  end.

(** ** Actions and reachable states *)

(** What a player can ask of the engine. *)
Inductive Action :=
| Move (destination : Position)
| Wall (position : Position) (hv : string).

Definition perform (a : Action) : M (option string) :=
  match a with
  | Move destination => move_to destination
  | Wall position hv => add_wall position hv
  end.

(** The states of a game: the initial one, and every state an accepted
    action (one that returns [None]) leads to. *)
Inductive reachable : Game → Prop :=
| reachable_init : reachable init
| reachable_perform self a self' :
    reachable self → perform a self = (inr None, self') → reachable self'.

(** The state after a list of actions, whatever each one returns. *)
Definition play (actions : list Action) (self : Game) : Game :=
  foldl (λ g a, (perform a g).2) self actions.

(** Whether every action of the list is accepted in turn. *)
Fixpoint all_accepted (actions : list Action) (self : Game) : bool :=
  match actions with
  | [] => true
  | a :: actions =>
      match perform a self with
      | (inr None, self') => all_accepted actions self'
      | _ => false
      end
  end.

(** ** Steps of the search *)

(** The cells of the grid, as a set. *)
Definition grid : gset Position :=
  list_to_set (r ← seqZ 0 9; (λ c, (r, c)) <$> seqZ 0 9).

(** One step of the search: [b] is yielded by [naive_neighbors a]. *)
Definition step (wall_parts : gset Position) (a b : Position) : Prop :=
  b ∈ naive_neighbors a wall_parts.

(** Orthogonally adjacent positions. *)
Definition adjacent (a b : Position) : Prop := manhattan a b = 1.

(** Cells in fine coordinates, and the midpoint of two fine coordinates. *)
Definition fine (a : Position) : Position := (a * 2)%pos.
Definition midpoint (x y : Position) : Position := ((x + y) // 2)%pos.

(** The edge of the cell graph: both ends in the grid, adjacent, and the
    slot between them free. *)
Definition edge (wall_parts : gset Position) (a b : Position) : Prop :=
  in_grid a = true ∧ in_grid b = true ∧ adjacent a b
  ∧ midpoint (fine a) (fine b) ∉ wall_parts.

(** ** Definitions for the proofs *)

(** What is left to do: five units for every position that can still be
    visited, one for every entry of the stack. *)
Definition search_measure (stack : list Position) (visited : gset Position) : nat :=
  (5 * size ((grid ∪ list_to_set stack) ∖ visited) + length stack)%nat.

(** The state [add_wall] commits before it calls [next_turn]. *)
Definition add_wall_commit (self : Game) (parts : gset Position) (count : Z) : Game :=
  set_count_walls (set_wall_parts self (wall_parts self ∪ (parts ∪ wall_parts self)))
                  (<[index self := count - 1]> (count_walls self)).

(** The state [move_to] commits before it calls [next_turn]. *)
Definition move_to_commit (self : Game) (destination : Position) : Game :=
  set_players_positions self (<[index self := destination]> (players_positions self)).

(** The checks of [move_to] for a jump, as one value. *)
Definition move_to_jump (self : Game) (current_position destination : Position)
  : Exc (option string) :=
  let diff := (destination - current_position)%pos in
  if bool_decide (diff ∈ JUMP_DIFFS) then
    inr (if bool_decide (0 ∈ [row diff; col diff])
         then move_to_over self current_position destination diff
         else move_to_beside self current_position destination)
  else inl AssertionError.

(** The cell behind [enemy], seen from [current_position]. *)
Definition behind (current_position enemy : Position) : Position :=
  (current_position + (enemy - current_position) * 2)%pos.

(** What holds in every state of a game. *)
Definition game_invariant (self : Game) : Prop :=
  nb_players self = 2%nat
  ∧ length (players_positions self) = 2%nat
  ∧ (∀ p, p ∈ players_positions self → in_grid p = true)
  ∧ ∀ i, (i < 2)%nat → can_exit self i (wall_parts self) = inr true.

(** ** Example games *)

(** Player 0 walks to the corner (0,8) of its goal row, player 1 stepping
    aside meanwhile, and puts a vertical wall at (0,7). *)
Definition approach_play : list Action :=
  [ Move (7, 4); Move (0, 3); Move (6, 4); Move (0, 2); Move (5, 4); Move (0, 3);
    Move (4, 4); Move (0, 2); Move (3, 4); Move (0, 3); Move (2, 4); Move (0, 2);
    Move (1, 4); Move (0, 3) ].
Definition approach_state : Game := play approach_play init.
Definition corner_play : list Action :=
  approach_play
  ++ [ Move (0, 4); Move (0, 5); Move (0, 6); Move (0, 7); Move (0, 8);
       Wall (0, 7) "v" ].
Definition corner_state : Game := play corner_play init.

(** The wall parts [add_wall((0,8), 'h')] tries in [corner_state]. *)
Definition corner_candidate : gset Position :=
  new_wall_parts (0, 8) "h" ∪ wall_parts corner_state.

(** The players walk towards each other along column 4. *)
Definition meeting_play : list Action :=
  [ Move (7, 4); Move (1, 4); Move (6, 4); Move (2, 4); Move (5, 4); Move (3, 4);
    Move (4, 4) ].
Definition meeting_state : Game := play meeting_play init.

(** Player 0 puts up its ten walls, player 1 steps left and right. *)
Definition walls_play : list Action :=
  [ Wall (1, 0) "h"; Move (0, 3); Wall (1, 2) "h"; Move (0, 4);
    Wall (1, 4) "h"; Move (0, 3); Wall (1, 6) "h"; Move (0, 4);
    Wall (3, 0) "h"; Move (0, 3); Wall (3, 2) "h"; Move (0, 4);
    Wall (3, 4) "h"; Move (0, 3); Wall (3, 6) "h"; Move (0, 4);
    Wall (5, 0) "h"; Move (0, 3); Wall (5, 2) "h"; Move (0, 4) ].
Definition walls_state : Game := play walls_play init.

(** Scenario B: player 0 on (7,4), player 1 on (6,4), a horizontal wall
    at (5,4). *)
Definition scenario_b : Game :=
  {| nb_players := 2; players_positions := [(7, 4); (6, 4)];
     wall_parts := new_wall_parts (5, 4) "h"; index := 0; count_walls := [10; 10] |}.

(** The state after the first wall of a game. *)
Definition first_wall_state : Game := play [Wall (7, 4) "h"] init.

(** Player 0 behind its own wall. *)
Definition ghost_state : Game := play [Wall (7, 4) "h"; Move (1, 4)] init.

(** The parts of a wall, from its two directions. *)
Definition parts_along (position primary secondary : Position) : gset Position :=
  list_to_set ((λ n, (position * 2 + secondary + primary * n)%pos) <$> [0; 1; 2]).

(** The directions [add_wall] uses: a vertical wall runs along the rows. *)
Definition primary (vertical : bool) : Position := if vertical then (1, 0) else (0, 1).
Definition secondary (vertical : bool) : Position := if vertical then (0, 1) else (1, 0).

(** The directions as the specification words them. *)
Definition claimed_primary (vertical : bool) : Position :=
  if vertical then (0, 1) else (1, 0).
Definition claimed_secondary (vertical : bool) : Position :=
  if vertical then (1, 0) else (0, 1).

(** The messages [move_to] and [add_wall] can return. *)
Definition MOVE_MESSAGES : list string :=
  [ ERROR_NOTHING; ERROR_FAR_AWAY; ERROR_GHOST;
    py_format (py_format ERROR_JUMP "over") NEED_BETWEEN_YOU;
    py_format (py_format ERROR_JUMP "over") NEED_BEHIND_OVER;
    py_format (py_format ERROR_JUMP "beside") NEED_BETWEEN_YOU;
    py_format (py_format ERROR_JUMP "beside") NEED_BEHIND_BESIDE;
    py_format (py_format ERROR_JUMP "beside") NEED_BETWEEN_DEST ].
Definition WALL_MESSAGES : list string :=
  [ ERROR_NO_WALL; ERROR_WALL_INTERSECTION; ERROR_BLOCK_YOU; ERROR_BLOCK_HIM ].

(** A decidable closed proposition, by evaluation of its decision. *)
Ltac decide_by_compute :=
  match goal with
  | |- ?P => apply (bool_decide_unpack P); vm_compute; exact I
  end.

(** The number of walls a player starts with. *)
Definition WALLS_PER_PLAYER : Z := 20 / 2.

(** The counts of walls left add up, with the walls put up, to the walls
    the game started with. *)
Definition wall_accounting (self : Game) : Prop :=
  ∃ c0 c1 : Z,
    count_walls self = [c0; c1]
    ∧ 0 ≤ c0 ≤ WALLS_PER_PLAYER ∧ 0 ≤ c1 ≤ WALLS_PER_PLAYER
    ∧ Z.of_nat (size (wall_parts self)) = 3 * (2 * WALLS_PER_PLAYER - c0 - c1).

(** The action of putting up a wall, under a name of its own: the class
    [Wall] of the widgets has the same name. *)
Abbreviation place_wall := Wall.

(** ** The board and its labels

    The classes [Board], [TurnLabel] and [PlayerLabel], without what Qt
    draws: a widget of the board is its class and the index of the player
    that filled it, a player widget is its place in the layout, a label is
    its counter and, for the turn and the message, the text it was given
    (a template and its argument for the turn). *)

Module Widgets.

(** The classes of the widgets of the grid layout. *)
Inductive BoardWidget := Cell | Wall | Void.

Global Instance BoardWidget_eq_dec : EqDecision BoardWidget.
Proof. solve_decision. Defined.

(** What the methods of the board can raise. *)
Inductive BoardExc := GameExc (e : PyExc) | KeyError.

Definition BExc (A : Type) : Type := BoardExc + A.

(** [TurnLabel]: [index] is between 1 and [nbPlayers]; the text is
    [template % index]. *)
Record TurnLabel := mkTurnLabel {
  nbPlayers : nat;
  turn_index : nat;
  turn_text : string * nat;
}.

Definition TURN_MSG : string := "It is Player %s's turn.".
Definition WINNER_MSG : string := "Player %s won!".

(** [TurnLabel.nextTurn] *)
Definition TurnLabel_nextTurn (self : TurnLabel) : BExc TurnLabel :=
  if decide (nbPlayers self = 0%nat) then inl (GameExc ZeroDivisionError)
  else
    let i := ((turn_index self `mod` nbPlayers self) + 1)%nat in
    inr {| nbPlayers := nbPlayers self; turn_index := i; turn_text := (TURN_MSG, i) |}.

(** [TurnLabel.showWinner] *)
Definition TurnLabel_showWinner (self : TurnLabel) : TurnLabel :=
  {| nbPlayers := nbPlayers self; turn_index := turn_index self;
     turn_text := (WINNER_MSG, turn_index self) |}.

(** [TurnLabel.__init__]; the text is set by [nextTurn]. *)
Definition TurnLabel_init (nbPlayers : nat) : BExc TurnLabel :=
  TurnLabel_nextTurn
    {| nbPlayers := nbPlayers; turn_index := 0; turn_text := (EmptyString, 0%nat) |}.

(** [Board]: [posToWidget] gives the class of the widget at a place of the
    layout and who filled it, [players] the place of each player widget,
    [playerLabels] the [nbWalls] of each [PlayerLabel], [messageLabel] the
    last value given to [setText]. *)
Record Board := mkBoard {
  isFinished : bool;
  posToWidget : gmap Position (BoardWidget * option nat);
  players : list Position;
  playerIndex : nat;
  game : Game;
  turnLabel : TurnLabel;
  playerLabels : list Z;
  messageLabel : option string;
}.

(** [range(0, 18, 2)] *)
Definition EVENS : list Z := (λ k, 2 * k) <$> seqZ 0 9.

(** [Board._generateBoardWidgets], as the list of what it yields. *)
Definition generateBoardWidgets : list (BoardWidget * Position) :=
  row ← EVENS;
  col ← EVENS;
  (if bool_decide (row ≠ 0) && bool_decide (col ≠ 0)
   then [(Void, (row - 1, col - 1))] else [])
  ++ (if bool_decide (row ≠ 0)
      then [(if col <? 16 then Wall else Void, (row - 1, col))] else [])
  ++ (if bool_decide (col ≠ 0)
      then [(if row <? 16 then Wall else Void, (row, col - 1))] else [])
  ++ [(Cell, (row, col))].

(** The loop of [Board.__init__] that fills [posToWidget]. *)
Definition Board_init_posToWidget : gmap Position (BoardWidget * option nat) :=
  foldl (λ m wp, <[wp.2 := (wp.1, None)]> m) ∅ generateBoardWidgets.

(** [Board.__init__] on the labels [MainWindow.defineCentralWidget] makes
    for [nbPlayers] players: a [TurnLabel], a [PlayerLabel] for each player,
    with [20 // nbPlayers] walls, and the label of the messages. *)
Definition Board_init (nbPlayers : nat) : BExc Board :=
  match TurnLabel_init nbPlayers with
  | inl e => inl e
  | inr label =>
      if bool_decide (nbPlayers = 2%nat) || bool_decide (nbPlayers = 4%nat) then
        inr {| isFinished := false;
               posToWidget := Board_init_posToWidget;
               players := (λ ij : Position, (2 * ij.1, 2 * ij.2)) <$> PLAYER_STARTS;
               playerIndex := 0;
               game := init;
               turnLabel := label;
               playerLabels := replicate nbPlayers (20 / Z.of_nat nbPlayers);
               messageLabel := Some "Error messages will be displayed here."%string |}
      else inl (GameExc AssertionError)
  end.

Definition set_game (self : Board) (g : Game) : Board :=
  {| isFinished := isFinished self; posToWidget := posToWidget self;
     players := players self; playerIndex := playerIndex self; game := g;
     turnLabel := turnLabel self; playerLabels := playerLabels self;
     messageLabel := messageLabel self |}.

Definition set_message (self : Board) (text : option string) : Board :=
  {| isFinished := isFinished self; posToWidget := posToWidget self;
     players := players self; playerIndex := playerIndex self; game := game self;
     turnLabel := turnLabel self; playerLabels := playerLabels self;
     messageLabel := text |}.

(** [Board.movePlayer(position)] *)
Definition movePlayer (position : Position) (self : Board) : BExc unit * Board :=
  match players self !! playerIndex self with
  | None => (inl (GameExc IndexError), self)
  | Some _ =>
      match posToWidget self !! position with
      | None => (inl KeyError, self)
      | Some _ =>
          (inr tt,
           {| isFinished := isFinished self; posToWidget := posToWidget self;
              players := <[playerIndex self := position]> (players self);
              playerIndex := playerIndex self; game := game self;
              turnLabel := turnLabel self; playerLabels := playerLabels self;
              messageLabel := messageLabel self |})
      end
  end.

(** The [for pos in positions] loop of [Board.addWall]. *)
Fixpoint addWall_for (playerIndex : nat) (positions : list Position)
    (widgets : gmap Position (BoardWidget * option nat))
  : BExc unit * gmap Position (BoardWidget * option nat) :=
  match positions with
  | [] => (inr tt, widgets)
  | pos :: positions =>
      match widgets !! pos with
      | None => (inl KeyError, widgets)
      | Some (Cell, _) => (inl (GameExc AssertionError), widgets)
      | Some (w, _) =>
          addWall_for playerIndex positions (<[pos := (w, Some playerIndex)]> widgets)
      end
  end.

(** The places [Board.addWall] fills. *)
Definition addWall_positions (position : Position) (vertical : Z) : list Position :=
  let move : Position := (vertical, if vertical =? 0 then 1 else 0) in
  (λ n, (position + move * n)%pos) <$> seqZ 0 3.

(** [Board.addWall(position, vertical)]; [vertical] is the 0 or 1 of
    [col % 2]. *)
Definition addWall (position : Position) (vertical : Z) (self : Board)
  : BExc unit * Board :=
  let '(r, widgets) :=
    addWall_for (playerIndex self) (addWall_positions position vertical)
      (posToWidget self) in
  let self :=
    {| isFinished := isFinished self; posToWidget := widgets;
       players := players self; playerIndex := playerIndex self; game := game self;
       turnLabel := turnLabel self; playerLabels := playerLabels self;
       messageLabel := messageLabel self |} in
  match r with
  | inl e => (inl e, self)
  | inr _ =>
      match playerLabels self !! playerIndex self with
      | None => (inl (GameExc IndexError), self)
      | Some nbWalls =>
          (inr tt,
           {| isFinished := isFinished self; posToWidget := posToWidget self;
              players := players self; playerIndex := playerIndex self;
              game := game self; turnLabel := turnLabel self;
              playerLabels := <[playerIndex self := nbWalls - 1]> (playerLabels self);
              messageLabel := messageLabel self |})
      end
  end.

(** [Board.nextTurn] *)
Definition nextTurn (self : Board) : BExc unit * Board :=
  match has_win (game self) None None with
  | inl e => (inl (GameExc e), self)
  | inr true =>
      (inr tt,
       {| isFinished := true; posToWidget := posToWidget self;
          players := players self; playerIndex := playerIndex self;
          game := game self; turnLabel := TurnLabel_showWinner (turnLabel self);
          playerLabels := playerLabels self; messageLabel := messageLabel self |})
  | inr false =>
      if decide (length (players self) = 0%nat)
      then (inl (GameExc ZeroDivisionError), self)
      else
        let self :=
          {| isFinished := isFinished self; posToWidget := posToWidget self;
             players := players self;
             playerIndex := ((playerIndex self + 1) `mod` length (players self))%nat;
             game := game self; turnLabel := turnLabel self;
             playerLabels := playerLabels self; messageLabel := messageLabel self |} in
        match TurnLabel_nextTurn (turnLabel self) with
        | inl e => (inl e, self)
        | inr label =>
            (inr tt,
             {| isFinished := isFinished self; posToWidget := posToWidget self;
                players := players self; playerIndex := playerIndex self;
                game := game self; turnLabel := label;
                playerLabels := playerLabels self;
                messageLabel := messageLabel self |})
        end
  end.

(** ['hv'[vertical]] for the 0 or 1 of [col % 2]. *)
Definition hv_of (vertical : Z) : string := if vertical =? 0 then "h" else "v".

(** [Board.receiveClick(clickedObject)]: the widget is given by its class
    and by the place [layout.getItemPosition] finds it at. *)
Definition receiveClick (clickedObject : BoardWidget) (item_position : Position)
    (self : Board) : BExc unit * Board :=
  match clickedObject with
  | Void => (inl (GameExc AssertionError), self)
  | _ =>
      if isFinished self then (inr tt, set_message self (Some "It is over!"%string))
      else
        let cell_position := (item_position // 2)%pos in
        let moved :=
          match clickedObject with
          | Cell =>
              (* Try to move in the game then update player widget. *)
              match move_to cell_position (game self) with
              | (inl e, g) => (inl (GameExc e), set_game self g)
              | (inr message, g) =>
                  let self := set_message (set_game self g) message in
                  match message with
                  | Some _ => (inr false, self)
                  | None =>
                      match movePlayer item_position self with
                      | (inl e, self) => (inl e, self)
                      | (inr _, self) => (inr true, self)
                      end
                  end
              end
          | _ =>
              (* Try to add a wall in the game then update wall/void widgets. *)
              let vertical := col item_position `mod` 2 in
              match add_wall cell_position (hv_of vertical) (game self) with
              | (inl e, g) => (inl (GameExc e), set_game self g)
              | (inr message, g) =>
                  let self := set_message (set_game self g) message in
                  match message with
                  | Some _ => (inr false, self)
                  | None =>
                      match addWall item_position vertical self with
                      | (inl e, self) => (inl e, self)
                      | (inr _, self) => (inr true, self)
                      end
                  end
              end
          end in
        match moved with
        | (inl e, self) => (inl e, self)
        | (inr false, self) => (inr tt, self)
        | (inr true, self) => nextTurn self   (* Update player turn. *)
        end
  end.

End Widgets.

(** ** Definitions for the properties of the board *)

(** The places of the grid layout: 17 rows and 17 columns. *)
Definition in_layout (p : Position) : bool :=
  ((0 <=? row p) && (row p <=? 16)) && ((0 <=? col p) && (col p <=? 16)).

(** The class of the widget at a place, by the parity of the place. *)
Definition class_at (p : Position) : Widgets.BoardWidget :=
  match Z.odd (row p), Z.odd (col p) with
  | false, false => Widgets.Cell
  | true, false => if col p <? 16 then Widgets.Wall else Widgets.Void
  | false, true => if row p <? 16 then Widgets.Wall else Widgets.Void
  | true, true => Widgets.Void
  end.

(** The widgets a click can come from: the cells and the walls. *)
Definition clickable (w : Widgets.BoardWidget) (item_position : Position) : Prop :=
  (w, item_position) ∈ Widgets.generateBoardWidgets ∧ w ≠ Widgets.Void.

(** The boards of the window: the one [MainWindow] makes, for two players,
    and the board after a click on a cell or a wall. *)
Inductive board_reachable : Widgets.Board → Prop :=
| board_reachable_init self :
    Widgets.Board_init 2 = inr self → board_reachable self
| board_reachable_click self w item_position :
    board_reachable self → clickable w item_position →
    board_reachable (Widgets.receiveClick w item_position self).2.

(** What the board and its labels show is what the game holds. *)
Definition board_in_sync (self : Widgets.Board) : Prop :=
  Widgets.playerIndex self = index (Widgets.game self)
  ∧ Widgets.playerLabels self = count_walls (Widgets.game self)
  ∧ Widgets.turn_index (Widgets.turnLabel self) = S (Widgets.playerIndex self)
  ∧ Widgets.players self = fine <$> players_positions (Widgets.game self)
  ∧ (∀ p, p ∈ wall_parts (Widgets.game self)
          ↔ ∃ w i, Widgets.posToWidget self !! p = Some (w, Some i))
  ∧ (Widgets.isFinished self = true
     ↔ has_win (Widgets.game self) None None = inr true).

(** No player stands on its goal row. *)
Definition nobody_home (self : Game) : Prop :=
  ∀ i p win, players_positions self !! i = Some p →
             PLAYER_HAS_WIN !! i = Some win → win p = false.
(** The places of the layout, row by row. *)
Definition all_places : list Position :=
  r ← seqZ 0 17; (λ c, (r, c)) <$> seqZ 0 17.

(** What the board needs of the place of a wall widget: the cell and the
    orientation it gives to [add_wall] are accepted by its first line, the
    places [Board.addWall] fills are the parts [add_wall] computes, and
    there are walls or voids at these places. *)
Definition wall_click_fits (item_position : Position) : Prop :=
  let vertical := col item_position `mod` 2 in
  let cell_position := (item_position // 2)%pos in
  in_grid cell_position = true
  ∧ (Widgets.hv_of vertical = "h"%string ∨ Widgets.hv_of vertical = "v"%string)
  ∧ list_to_set (Widgets.addWall_positions item_position vertical)
    = new_wall_parts cell_position (Widgets.hv_of vertical)
  ∧ Forall (λ pos, in_layout pos = true ∧ class_at pos ≠ Widgets.Cell)
      (Widgets.addWall_positions item_position vertical).

(** What the board needs of the place of a cell widget. *)
Definition cell_click_fits (item_position : Position) : Prop :=
  in_grid (item_position // 2)%pos = true
  ∧ fine (item_position // 2)%pos = item_position.

(** What every board of the window satisfies. *)
Definition board_invariant (self : Widgets.Board) : Prop :=
  reachable (Widgets.game self)
  ∧ board_in_sync self
  ∧ (∀ p, fst <$> (Widgets.posToWidget self !! p)
          = if in_layout p then Some (class_at p) else None)
  ∧ Widgets.nbPlayers (Widgets.turnLabel self) = 2%nat
  ∧ (Widgets.isFinished self = false → nobody_home (Widgets.game self)).

(** The board after a list of clicks. *)
Definition click_all (clicks : list (Widgets.BoardWidget * Position))
    (self : Widgets.Board) : Widgets.Board :=
  foldl (λ b c, (Widgets.receiveClick c.1 c.2 b).2) self clicks.

(** The board [Board.__init__] makes for two players. *)
Definition first_board : Widgets.Board :=
  {| Widgets.isFinished := false;
     Widgets.posToWidget := Widgets.Board_init_posToWidget;
     Widgets.players := [(16, 8); (0, 8)];
     Widgets.playerIndex := 0;
     Widgets.game := init;
     Widgets.turnLabel :=
       {| Widgets.nbPlayers := 2; Widgets.turn_index := 1;
          Widgets.turn_text := (Widgets.TURN_MSG, 1%nat) |};
     Widgets.playerLabels := [10; 10];
     Widgets.messageLabel := Some "Error messages will be displayed here."%string |}.

(** Clicks on cells: player 0 walks up to its goal row, player 1 steps
    aside. *)
Definition winning_clicks : list (Widgets.BoardWidget * Position) :=
  (λ p : Position, (Widgets.Cell, fine p))
    <$> [ (7, 4); (0, 3); (6, 4); (0, 2); (5, 4); (0, 3); (4, 4); (0, 2);
          (3, 4); (0, 3); (2, 4); (0, 2); (1, 4); (0, 3); (0, 4) ].
Definition won_board : Widgets.Board := click_all winning_clicks first_board.

(** A click on a wall, then a click on a cell. *)
Definition two_clicks : list (Widgets.BoardWidget * Position) :=
  [ (Widgets.Wall, (15, 8)); (Widgets.Cell, (2, 8)) ].
Definition played_board : Widgets.Board := click_all two_clicks first_board.

(** ** Properties of the positions and of the steps *)

Section search.

Lemma in_grid_spec (p : Position) :
  in_grid p = true ↔ 0 ≤ p.1 < 9 ∧ 0 ≤ p.2 < 9.
Proof. unfold in_grid, row, col. lia. Qed.

Lemma elem_of_grid (p : Position) : p ∈ grid ↔ in_grid p = true.
Proof.
  rewrite in_grid_spec. unfold grid. rewrite elem_of_list_to_set, list_elem_of_bind.
  split.
  - intros (r & Hp & Hr). apply list_elem_of_fmap in Hp as (c & -> & Hc).
    apply elem_of_seqZ in Hr, Hc. simpl. lia.
  - intros [Hr Hc]. exists p.1. split.
    + apply list_elem_of_fmap. exists p.2. split; [by destruct p|].
      apply elem_of_seqZ. lia.
    + apply elem_of_seqZ. lia.
Qed.

Lemma size_grid : size grid = 81%nat.
Proof. vm_compute. reflexivity. Qed.

Lemma elem_of_MOVES (m : Position) :
  m ∈ MOVES ↔ Z.abs m.1 + Z.abs m.2 = 1.
Proof.
  unfold MOVES. rewrite !elem_of_cons, elem_of_nil. destruct m as [r c]; simpl.
  split.
  - intros [H|[H|[H|[H|[]]]]]; inversion H; lia.
  - intros H.
    assert ((r = -1 ∧ c = 0) ∨ (r = 1 ∧ c = 0) ∨ (r = 0 ∧ c = -1) ∨ (r = 0 ∧ c = 1))
      as [[-> ->]|[[-> ->]|[[-> ->]|[-> ->]]]] by lia; auto.
Qed.

Lemma midpoint_fine (a b : Position) : midpoint (fine a) (fine b) = (a + b)%pos.
Proof.
  unfold midpoint, fine, pos_floordiv, pos_add, pos_mul, row, col. simpl.
  f_equal.
  - replace (a.1 * 2 + b.1 * 2) with ((a.1 + b.1) * 2) by lia. apply Z.div_mul. lia.
  - replace (a.2 * 2 + b.2 * 2) with ((a.2 + b.2) * 2) by lia. apply Z.div_mul. lia.
Qed.

Lemma step_spec (wp : gset Position) (a b : Position) :
  step wp a b ↔ adjacent a b ∧ in_grid b = true ∧ (a + b)%pos ∉ wp.
Proof.
  unfold step, naive_neighbors, adjacent, manhattan.
  rewrite list_elem_of_filter, list_elem_of_fmap. split.
  - intros [[Hg Hw] (m & -> & Hm)]. apply elem_of_MOVES in Hm.
    split; [|done]. unfold pos_sub, pos_add, row, col. simpl. lia.
  - intros (Hadj & Hg & Hw). split; [done|].
    exists (b - a)%pos. split.
    + unfold pos_sub, pos_add, row, col. destruct a, b; simpl. f_equal; lia.
    + apply elem_of_MOVES. revert Hadj. unfold pos_sub, row, col. simpl. lia.
Qed.

Lemma step_in_grid wp a b : step wp a b → in_grid b = true.
Proof. rewrite step_spec. tauto. Qed.

Lemma adjacent_sym a b : adjacent a b → adjacent b a.
Proof. unfold adjacent, manhattan, pos_sub, row, col. simpl. lia. Qed.

Lemma pos_add_comm (a b : Position) : (a + b)%pos = (b + a)%pos.
Proof. unfold pos_add, row, col. f_equal; lia. Qed.

Lemma step_sym wp a b : in_grid a = true → step wp a b → step wp b a.
Proof.
  rewrite !step_spec. intros Ha (Hadj & Hb & Hw).
  rewrite (pos_add_comm b a). auto using adjacent_sym.
Qed.

Lemma step_edge wp a b : in_grid a = true → step wp a b ↔ edge wp a b.
Proof. intros Ha. unfold edge. rewrite step_spec, midpoint_fine. tauto. Qed.

Lemma tc_step_in_grid wp a b : tc (step wp) a b → in_grid b = true.
Proof. induction 1; eauto using step_in_grid. Qed.

Lemma tc_step_sym wp a b : in_grid a = true → tc (step wp) a b → tc (step wp) b a.
Proof.
  intros Ha H. induction H as [a b H|a x b H H' IH].
  - apply tc_once. by apply step_sym.
  - eapply tc_r; [apply IH; eauto using step_in_grid|]. by apply step_sym.
Qed.

Lemma tc_step_edge wp a b :
  in_grid a = true → tc (step wp) a b ↔ tc (edge wp) a b.
Proof.
  intros Ha. split.
  - intros H. induction H as [a b H|a x b H H' IH].
    + apply tc_once. by apply step_edge.
    + eapply tc_l; [by apply step_edge|]. apply IH. eauto using step_in_grid.
  - intros H. induction H as [a b H|a x b H H' IH].
    + apply tc_once. by apply step_edge.
    + eapply tc_l; [by apply step_edge|]. apply IH. apply H.
Qed.

Lemma length_naive_neighbors position wp :
  (length (naive_neighbors position wp) ≤ 4)%nat.
Proof.
  unfold naive_neighbors.
  etrans; [apply length_filter|]. by rewrite length_fmap.
Qed.

End search.

(** ** The search of [can_exit] *)

Section can_exit_loops.
Variables (self : Game) (i : nat) (wp : gset Position).

(** The inner loop only pushes unvisited neighbours. *)
Lemma can_exit_for_stack visited ns stack stack' :
  can_exit_for self i visited ns stack = inr (Some stack') →
  (∀ x, x ∈ stack' ↔ x ∈ stack ∨ (x ∈ ns ∧ x ∉ visited))
  ∧ (length stack' ≤ length stack + length ns)%nat.
Proof.
  revert stack. induction ns as [|n ns IH]; intros stack; simpl.
  - intros [= <-]. split; [|lia]. intros x. rewrite elem_of_nil. tauto.
  - destruct (has_win self (Some i) (Some n)) as [e|[]]; simpl; [done..|].
    destruct (decide (n ∉ visited)) as [Hn|Hn]; intros H;
      apply IH in H as [Hs Hl]; (split; [|simpl in *; lia]);
      intros x; rewrite Hs, ?elem_of_cons; naive_solver.
Qed.

(** The fuel of [can_exit] is enough: the loop stops by itself before
    [search_measure] iterations are over. *)
Lemma can_exit_while_total fuel stack visited :
  (search_measure stack visited < fuel)%nat →
  is_Some (can_exit_while fuel self i wp stack visited).
Proof.
  revert stack visited. induction fuel as [|fuel IH]; intros stack visited Hm;
    [lia|]. simpl.
  destruct stack as [|position stack]; [by eexists|].
  destruct (decide (position ∉ visited)) as [Hp|Hp].
  - destruct (can_exit_for _ _ _ _ _) as [e|[stack'|]] eqn:Hfor; [by eexists| |by eexists].
    apply can_exit_for_stack in Hfor as [Hs Hl].
    pose proof (length_naive_neighbors position wp) as Hn.
    apply IH. unfold search_measure in *.
    assert ((grid ∪ list_to_set stack') ∖ ({[position]} ∪ visited)
            ⊂ (grid ∪ list_to_set (position :: stack)) ∖ visited) as Hsub.
    { split.
      - intros x. rewrite !elem_of_difference, !elem_of_union, !elem_of_list_to_set, Hs.
        rewrite elem_of_cons.
        intros [Hx Hv]. split; [|intros ?; apply Hv; by right].
        destruct Hx as [?|[?|[Hx _]]]; [by left|by right; right|].
        left. apply elem_of_grid. by apply step_in_grid in Hx.
      - intros Hsub. specialize (Hsub position). revert Hsub.
        rewrite !elem_of_difference, !elem_of_union, !elem_of_list_to_set.
        rewrite elem_of_cons, elem_of_singleton.
        intros Hsub. destruct Hsub as [_ Hv]; [|apply Hv; by left].
        split; [right; by left|done]. }
    apply subset_size in Hsub. revert Hm Hsub Hl Hn.
    generalize (size ((grid ∪ list_to_set stack') ∖ ({[position]} ∪ visited))).
    generalize (size ((grid ∪ list_to_set (position :: stack)) ∖ visited)).
    generalize (length (naive_neighbors position wp)).
    simpl. lia.
  - apply IH. unfold search_measure in *.
    assert ((grid ∪ list_to_set stack) ∖ visited
            ⊆ (grid ∪ list_to_set (position :: stack)) ∖ visited) as Hsub.
    { intros x. rewrite !elem_of_difference, !elem_of_union, !elem_of_list_to_set.
      rewrite elem_of_cons. tauto. }
    apply subseteq_size in Hsub. revert Hm Hsub.
    generalize (size ((grid ∪ list_to_set stack) ∖ visited)).
    generalize (size ((grid ∪ list_to_set (position :: stack)) ∖ visited)).
    simpl. lia.
Qed.

Lemma search_measure_start (s : Position) :
  (search_measure [s] ∅ < can_exit_fuel)%nat.
Proof.
  unfold search_measure, can_exit_fuel.
  assert (size ((grid ∪ list_to_set [s]) ∖ (∅ : gset Position)) ≤ 82)%nat as H.
  2:{ revert H. generalize (size ((grid ∪ list_to_set [s]) ∖ (∅ : gset Position))).
      intros n Hn. cbn [length]. lia. }
  etrans; [apply subseteq_size; apply subseteq_difference_l; reflexivity|].
  rewrite size_union_alt, size_grid.
  assert (size (list_to_set [s] ∖ grid : gset Position) ≤ 1)%nat; [|lia].
  etrans; [apply subseteq_size; apply subseteq_difference_l; reflexivity|].
  rewrite list_to_set_cons, list_to_set_nil, union_empty_r_L, size_singleton. done.
Qed.

(** More fuel does not change a result. *)
Lemma can_exit_while_mono fuel fuel' stack visited r :
  (fuel ≤ fuel')%nat →
  can_exit_while fuel self i wp stack visited = Some r →
  can_exit_while fuel' self i wp stack visited = Some r.
Proof.
  revert fuel' stack visited. induction fuel as [|fuel IH];
    intros fuel' stack visited Hle; [done|].
  destruct fuel' as [|fuel']; [lia|]. simpl.
  destruct stack as [|position stack]; [done|].
  destruct (decide (position ∉ visited)).
  - destruct (can_exit_for _ _ _ _ _) as [e|[stack'|]]; [done| |done].
    apply IH. lia.
  - apply IH. lia.
Qed.

Lemma can_exit_while_enough (s : Position) (fuel : nat) :
  (can_exit_fuel ≤ fuel)%nat →
  ∃ r, can_exit_while can_exit_fuel self i wp [s] ∅ = Some r
       ∧ can_exit_while fuel self i wp [s] ∅ = Some r.
Proof.
  intros Hle.
  destruct (can_exit_while_total can_exit_fuel [s] ∅ (search_measure_start s))
    as [r Hr].
  exists r. split; [exact Hr|]. by apply (can_exit_while_mono can_exit_fuel).
Qed.

Variable win : Position → bool.
Hypothesis Hwin : PLAYER_HAS_WIN !! i = Some win.

Lemma has_win_at (p : Position) : has_win self (Some i) (Some p) = inr (win p).
Proof. unfold has_win, getitem. simpl. by rewrite Hwin. Qed.

(** The inner loop returns [True] exactly when a neighbour is on the goal
    row, and does not raise. *)
Lemma can_exit_for_win visited ns stack :
  match can_exit_for self i visited ns stack with
  | inl _ => False
  | inr None => ∃ n, n ∈ ns ∧ win n = true
  | inr (Some _) => ∀ n, n ∈ ns → win n = false
  end.
Proof.
  revert stack. induction ns as [|n ns IH]; intros stack; simpl.
  - intros n. by rewrite elem_of_nil.
  - rewrite has_win_at. simpl. destruct (win n) eqn:Hn.
    + exists n. split; [left|done].
    + destruct (decide (n ∉ visited));
        (match goal with |- context [can_exit_for _ _ _ _ ?st] => specialize (IH st) end);
        destruct (can_exit_for _ _ _ _ _) as [e|[stack'|]]; try done;
        try (destruct IH as (m & ? & ?); exists m; split; [by right|done]);
        intros m [->|?]%elem_of_cons; auto.
Qed.

(** Soundness: [True] is returned only for a goal cell that is one step or
    more away from a position of the stack. *)
Lemma can_exit_while_true fuel stack visited :
  can_exit_while fuel self i wp stack visited = Some (inr true) →
  ∃ x t, x ∈ stack ∧ tc (step wp) x t ∧ win t = true.
Proof.
  revert stack visited. induction fuel as [|fuel IH]; intros stack visited; [done|].
  simpl. destruct stack as [|position stack]; [done|].
  destruct (decide (position ∉ visited)) as [Hp|Hp].
  - pose proof (can_exit_for_win ({[position]} ∪ visited)
                  (naive_neighbors position wp) stack) as Hw.
    destruct (can_exit_for _ _ _ _ _) as [e|[stack'|]] eqn:Hfor; [done| |].
    + intros (x & t & Hx & Ht & Hwt)%IH.
      apply can_exit_for_stack in Hfor as [Hs _]. apply Hs in Hx as [Hx|[Hx _]].
      * exists x, t. split; [by right|done].
      * exists position, t. split; [left|]. split; [|done]. by eapply tc_l.
    + intros _. destruct Hw as (n & Hn & Hwn).
      exists position, n. split; [left|]. split; [|done]. by apply tc_once.
  - intros (x & t & Hx & Ht)%IH. exists x, t. split; [by right|done].
Qed.

(** Completeness: when [False] is returned, the visited positions and the
    stack lie in a set closed under steps none of which ends on the goal
    row. *)
Lemma can_exit_while_false fuel stack visited :
  can_exit_while fuel self i wp stack visited = Some (inr false) →
  (∀ x y, x ∈ visited → step wp x y →
          win y = false ∧ (y ∈ visited ∨ y ∈ stack)) →
  ∃ V : gset Position,
    (∀ x, x ∈ visited ∨ x ∈ stack → x ∈ V)
    ∧ ∀ x y, x ∈ V → step wp x y → win y = false ∧ y ∈ V.
Proof.
  revert stack visited. induction fuel as [|fuel IH]; intros stack visited; [done|].
  simpl. destruct stack as [|position stack].
  { intros _ Hinv. exists visited. split.
    - intros x [?|[]%elem_of_nil]. done.
    - intros x y Hx Hxy. destruct (Hinv x y Hx Hxy) as [? [?|[]%elem_of_nil]]. done. }
  destruct (decide (position ∉ visited)) as [Hp|Hp].
  - pose proof (can_exit_for_win ({[position]} ∪ visited)
                  (naive_neighbors position wp) stack) as Hw.
    destruct (can_exit_for _ _ _ _ _) as [e|[stack'|]] eqn:Hfor; [done| |done].
    apply can_exit_for_stack in Hfor as [Hs _].
    intros H Hinv. apply IH in H as (V & HV & Hclosed).
    + exists V. split; [|done]. intros x [Hx|[->|Hx]%elem_of_cons]; apply HV.
      * left. set_solver.
      * left. set_solver.
      * right. apply Hs. by left.
    + intros x y [->%elem_of_singleton|Hx]%elem_of_union Hxy.
      * split; [by apply Hw|].
        destruct (decide (y ∈ {[position]} ∪ visited)); [by left|].
        right. apply Hs. right. done.
      * destruct (Hinv x y Hx Hxy) as [? [?|[->|?]%elem_of_cons]]; split; auto.
        -- left. set_solver.
        -- left. set_solver.
        -- right. apply Hs. by left.
  - intros H Hinv. apply dec_stable in Hp. apply IH in H as (V & HV & Hclosed).
    + exists V. split; [|done]. intros x [Hx|[->|Hx]%elem_of_cons]; apply HV; auto.
    + intros x y Hx Hxy.
      destruct (Hinv x y Hx Hxy) as [? [?|[->|?]%elem_of_cons]]; auto.
Qed.

(** No exception is raised by the search of a player that has a goal. *)
Lemma can_exit_while_no_exc fuel stack visited e :
  can_exit_while fuel self i wp stack visited ≠ Some (inl e).
Proof.
  revert stack visited. induction fuel as [|fuel IH]; intros stack visited; [done|].
  simpl. destruct stack as [|position stack]; [done|].
  destruct (decide (position ∉ visited)); [|apply IH].
  pose proof (can_exit_for_win ({[position]} ∪ visited)
                (naive_neighbors position wp) stack) as Hw.
  destruct (can_exit_for _ _ _ _ _) as [e'|[stack'|]]; [done|apply IH|done].
Qed.

(** [can_exit] decides whether a goal cell is one step or more away from
    the position of the player. *)
Lemma can_exit_spec (s : Position) :
  players_positions self !! i = Some s →
  ∃ b : bool, can_exit self i wp = inr b
              ∧ (b = true ↔ ∃ t, tc (step wp) s t ∧ win t = true).
Proof.
  intros Hs. unfold can_exit, getitem. rewrite Hs. unfold ebind.
  destruct (can_exit_while_total can_exit_fuel [s] ∅ (search_measure_start s))
    as [r Hr].
  rewrite Hr. destruct r as [e|[]].
  - by apply can_exit_while_no_exc in Hr.
  - exists true. split; [done|]. split; [|done]. intros _.
    apply can_exit_while_true in Hr as (x & t & Hx & Ht).
    apply list_elem_of_singleton in Hx as ->. by exists t.
  - exists false. split; [done|]. split; [done|]. intros (t & Ht & Hwt).
    apply can_exit_while_false in Hr as (V & HV & Hclosed).
    + assert (∀ a b, tc (step wp) a b → a ∈ V → win b = false) as Hno.
      { clear -Hclosed. induction 1 as [a b H|a x b H H' IH]; intros Ha.
        - by destruct (Hclosed a b Ha H).
        - apply IH. by destruct (Hclosed a x Ha H). }
      rewrite (Hno s t Ht) in Hwt; [done|]. apply HV. right. left.
    + intros x y []%not_elem_of_empty.
Qed.

End can_exit_loops.

(** ** The methods, case by case *)

Section method_cases.

Lemma next_turn_unfold self :
  next_turn self =
  match has_win self None None with
  | inl e => (inl e, self)
  | inr true => (inr tt, self)
  | inr false =>
      if decide (nb_players self = 0%nat) then (inl ZeroDivisionError, self)
      else (inr tt, set_index self ((index self + 1) `mod` nb_players self)%nat)
  end.
Proof.
  unfold next_turn, bind, get, lift, ret, raise, put.
  destruct (has_win self None None) as [e|[]]; simpl; [done..|].
  by destruct (decide _).
Qed.

Lemma add_wall_unfold position hv self :
  add_wall position hv self =
  if in_grid position
     && (bool_decide (hv = "h"%string) || bool_decide (hv = "v"%string)) then
    match count_walls self !! index self with
    | None => (inl IndexError, self)
    | Some count =>
        if count =? 0 then (inr (Some ERROR_NO_WALL), self)
        else if decide (new_wall_parts position hv ∩ wall_parts self ≠ ∅)
        then (inr (Some ERROR_WALL_INTERSECTION), self)
        else
          match add_wall_for self (new_wall_parts position hv ∪ wall_parts self)
                  (seq 0 (nb_players self)) with
          | inl e => (inl e, self)
          | inr (Some msg) => (inr (Some msg), self)
          | inr None =>
              match next_turn (add_wall_commit self (new_wall_parts position hv) count) with
              | (inl e, self') => (inl e, self')
              | (inr _, self') => (inr None, self')
              end
          end
    end
  else (inl AssertionError, self).
Proof.
  unfold add_wall, bind, get, lift, ret, raise, put, py_assert, getitem.
  destruct (in_grid position && _); simpl; [|done].
  destruct (count_walls self !! index self) as [count|]; simpl; [|done].
  destruct (count =? 0); [done|]. destruct (decide _); [done|].
  by destruct (add_wall_for _ _ _) as [e|[msg|]].
Qed.

Lemma move_to_unfold destination self :
  move_to destination self =
  if in_grid destination then
    match players_positions self !! index self with
    | None => (inl IndexError, self)
    | Some current_position =>
        let distance := manhattan current_position destination in
        if distance =? 0 then (inr (Some ERROR_NOTHING), self)
        else if 2 <? distance then (inr (Some ERROR_FAR_AWAY), self)
        else if (distance =? 1)
                && bool_decide (destination ∉ naive_neighbors current_position
                                                (wall_parts self))
        then (inr (Some ERROR_GHOST), self)
        else
          match (if distance =? 2
                 then move_to_jump self current_position destination
                 else inr None) with
          | inl e => (inl e, self)
          | inr (Some msg) => (inr (Some msg), self)
          | inr None =>
              match next_turn (move_to_commit self destination) with
              | (inl e, self') => (inl e, self')
              | (inr _, self') => (inr None, self')
              end
          end
    end
  else (inl AssertionError, self).
Proof.
  unfold move_to, bind, get, lift, ret, raise, put, py_assert, getitem.
  destruct (in_grid destination); simpl; [|done].
  destruct (players_positions self !! index self) as [current|]; simpl; [|done].
  destruct (_ =? 0); [done|]. destruct (2 <? _); [done|].
  destruct (_ && _); [done|].
  unfold move_to_jump, move_to_commit.
  destruct (_ =? 2); simpl.
  - destruct (bool_decide (_ ∈ JUMP_DIFFS)); simpl; [|done].
    destruct (bool_decide (0 ∈ _)); simpl.
    + destruct (move_to_over _ _ _ _); simpl; [done|].
      by destruct (next_turn _) as [[e|[]] self'].
    + destruct (move_to_beside _ _ _); simpl; [done|].
      by destruct (next_turn _) as [[e|[]] self'].
  - by destruct (next_turn _) as [[e|[]] self'].
Qed.

(** [next_turn] changes nothing but [index]. *)
Lemma next_turn_frame self r self' :
  next_turn self = (r, self') →
  nb_players self' = nb_players self
  ∧ players_positions self' = players_positions self
  ∧ wall_parts self' = wall_parts self
  ∧ count_walls self' = count_walls self.
Proof.
  rewrite next_turn_unfold.
  destruct (has_win self None None) as [e|[]]; [by intros [= <- <-]..|].
  destruct (decide _); by intros [= <- <-].
Qed.

(** The turn after [next_turn], for two players. *)
Lemma next_turn_index self self' :
  nb_players self = 2%nat →
  next_turn self = (inr tt, self') →
  ∃ won, has_win self' (Some (index self)) None = inr won
         ∧ index self' = if won then index self else (1 - index self)%nat.
Proof.
  intros Hnb. rewrite next_turn_unfold.
  destruct (has_win self None None) as [e|[]] eqn:Hw; [done| |].
  - intros [= <-]. by exists true.
  - rewrite Hnb. simpl. intros [= <-]. exists false. split; [done|]. simpl.
    unfold has_win, getitem in Hw.
    destruct (players_positions self !! index self); simpl in Hw; [|done].
    destruct (PLAYER_HAS_WIN !! index self) eqn:Hi; simpl in Hw; [|done].
    apply lookup_lt_Some in Hi. simpl in Hi.
    destruct (index self) as [|[|?]]; simpl; [done..|lia].
Qed.

(** [next_turn] does not raise for a player of a two-player game that has a
    position. *)
Lemma next_turn_ok self p :
  players_positions self !! index self = Some p →
  (index self < 2)%nat → nb_players self = 2%nat →
  ∃ self', next_turn self = (inr tt, self').
Proof.
  intros Hp Hi Hnb. rewrite next_turn_unfold. unfold has_win, getitem.
  rewrite Hp. simpl.
  destruct (lookup_lt_is_Some_2 PLAYER_HAS_WIN (index self)) as [win ->]; [done|].
  simpl. destruct (win p); [by eexists|].
  rewrite Hnb. simpl. by eexists.
Qed.

(** What an accepted [move_to] has checked and done. *)
Lemma move_to_accepted destination self self' :
  move_to destination self = (inr None, self') →
  ∃ current_position,
    in_grid destination = true
    ∧ players_positions self !! index self = Some current_position
    ∧ (manhattan current_position destination = 1
       ∧ destination ∈ naive_neighbors current_position (wall_parts self)
       ∨ manhattan current_position destination = 2
         ∧ move_to_jump self current_position destination = inr None)
    ∧ next_turn (move_to_commit self destination) = (inr tt, self').
Proof.
  rewrite move_to_unfold. destruct (in_grid destination); [|done].
  destruct (players_positions self !! index self) as [c|]; [|done]. cbv zeta.
  destruct (_ =? 0) eqn:H0; [done|]. destruct (2 <? _) eqn:H2; [done|].
  destruct (_ && _) eqn:H1; [done|].
  intros H. exists c. split; [done|]. split; [done|].
  assert (manhattan c destination = 1 ∨ manhattan c destination = 2) as [Hd|Hd].
  { unfold manhattan in *. lia. }
  - rewrite Hd in *. simpl in *. apply bool_decide_eq_false in H1.
    apply dec_stable in H1.
    destruct (next_turn _) as [[e|[]] g] eqn:Hn; [done|]. injection H as <-.
    split; [|done]. by left.
  - rewrite Hd in *. simpl in *.
    destruct (move_to_jump self c destination) as [e|[msg|]]; [done..|].
    destruct (next_turn _) as [[e|[]] g] eqn:Hn; [done|]. injection H as <-.
    split; [|done]. by right.
Qed.

(** What an accepted [add_wall] has checked and done. *)
Lemma add_wall_accepted position hv self self' :
  add_wall position hv self = (inr None, self') →
  ∃ count,
    count_walls self !! index self = Some count
    ∧ new_wall_parts position hv ∩ wall_parts self = ∅
    ∧ add_wall_for self (new_wall_parts position hv ∪ wall_parts self)
        (seq 0 (nb_players self)) = inr None
    ∧ next_turn (add_wall_commit self (new_wall_parts position hv) count)
      = (inr tt, self').
Proof.
  rewrite add_wall_unfold. destruct (in_grid position && _); [|done].
  destruct (count_walls self !! index self) as [count|]; [|done].
  destruct (count =? 0); [done|]. destruct (decide _) as [|He]; [done|].
  apply dec_stable in He.
  destruct (add_wall_for _ _ _) as [e|[msg|]]; [done..|].
  destruct (next_turn _) as [[e|[]] g] eqn:Hn; [done|]. intros [= <-]. by exists count.
Qed.

End method_cases.

(** ** The checks of the jumps *)

Section jumps.

Lemma nonempty_elem {A} (l : list A) : l ≠ [] ↔ ∃ x, x ∈ l.
Proof.
  destruct l as [|x l]; split; try done.
  - by intros (x & ?%elem_of_nil).
  - intros _. exists x. left.
Qed.

(** The jump beside an enemy is let through exactly when some enemy passes
    the five filters. *)
Lemma move_to_beside_None self c d :
  move_to_beside self c d = None ↔
  ∃ enemy, enemy ∈ players_positions self
           ∧ manhattan c enemy = 1 ∧ manhattan enemy d = 1
           ∧ enemy ∈ naive_neighbors c (wall_parts self)
           ∧ (in_grid (behind c enemy) = false
              ∨ behind c enemy ∉ naive_neighbors enemy (wall_parts self))
           ∧ d ∈ naive_neighbors enemy (wall_parts self).
Proof.
  unfold move_to_beside.
  set (l1 := filter (λ enemy, manhattan c enemy = 1) (players_positions self)).
  set (l2 := filter (λ enemy, manhattan enemy d = 1) l1).
  set (l3 := filter (λ enemy, enemy ∈ (list_to_set (naive_neighbors c (wall_parts self))
                                       : gset Position)) l2).
  set (l4 := fst <$> filter (λ eb : Position * Position,
                      in_grid eb.2 = false
                      ∨ eb.2 ∉ naive_neighbors eb.1 (wall_parts self))
                 ((λ enemy, (enemy, (c + (enemy - c) * 2)%pos)) <$> l3)).
  set (l5 := filter (λ enemy, d ∈ naive_neighbors enemy (wall_parts self)) l4).
  assert (∀ e, e ∈ l5 ↔
            e ∈ players_positions self
            ∧ manhattan c e = 1 ∧ manhattan e d = 1
            ∧ e ∈ naive_neighbors c (wall_parts self)
            ∧ (in_grid (behind c e) = false
               ∨ behind c e ∉ naive_neighbors e (wall_parts self))
            ∧ d ∈ naive_neighbors e (wall_parts self)) as H5.
  { intros e. unfold l5, l4. rewrite list_elem_of_filter, list_elem_of_fmap.
    split.
    - intros (Hd & [e' b] & -> & Hf). apply list_elem_of_filter in Hf as [Hb Hf].
      apply list_elem_of_fmap in Hf as (e & [= -> ->] & H3).
      apply list_elem_of_filter in H3 as [Hc H2]. apply elem_of_list_to_set in Hc.
      apply list_elem_of_filter in H2 as [? H1].
      apply list_elem_of_filter in H1 as [? ?]. done.
    - intros (Hp & H1 & H2 & H3 & H4 & Hd). split; [done|].
      exists (e, behind c e). split; [done|].
      apply list_elem_of_filter. split; [done|].
      apply list_elem_of_fmap. exists e. split; [done|].
      unfold l3, l2, l1. rewrite !list_elem_of_filter, elem_of_list_to_set. done. }
  assert (∀ e, e ∈ l5 → e ∈ l4) as H54 by (intros e [? ?]%list_elem_of_filter; done).
  assert (∀ e, e ∈ l4 → e ∈ l3) as H43.
  { intros e ([e' b] & -> & Hf)%list_elem_of_fmap.
    apply list_elem_of_filter in Hf as [_ Hf].
    by apply list_elem_of_fmap in Hf as (e & [= -> ->] & H3). }
  assert (∀ e, e ∈ l3 → e ∈ l2) as H32 by (intros e [? ?]%list_elem_of_filter; done).
  assert (∀ e, e ∈ l2 → e ∈ l1) as H21 by (intros e [? ?]%list_elem_of_filter; done).
  split.
  - repeat (destruct (decide (_ = [])); [done|]). intros _.
    destruct (proj1 (nonempty_elem l5)) as [e He]; [done|].
    exists e. by apply H5.
  - intros (e & He). apply H5 in He.
    repeat (rewrite decide_False; [|apply nonempty_elem; exists e; auto 10]).
    done.
Qed.

Lemma manhattan_behind c e : manhattan c (behind c e) = 2 * manhattan c e.
Proof. unfold manhattan, behind, pos_sub, pos_add, pos_mul, row, col. simpl. lia. Qed.

Lemma adjacent_behind c e : adjacent c e → adjacent e (behind c e).
Proof.
  unfold adjacent, manhattan, behind, pos_sub, pos_add, pos_mul, row, col. simpl. lia.
Qed.

Lemma half_behind c e : (c + (behind c e - c) // 2)%pos = e.
Proof.
  unfold behind, pos_sub, pos_add, pos_mul, pos_floordiv, row, col.
  destruct c as [c1 c2], e as [e1 e2]. simpl. f_equal.
  - replace (c1 + (e1 - c1) * 2 - c1) with ((e1 - c1) * 2) by lia.
    rewrite Z.div_mul; lia.
  - replace (c2 + (e2 - c2) * 2 - c2) with ((e2 - c2) * 2) by lia.
    rewrite Z.div_mul; lia.
Qed.

(** A straight jump over [enemy] with no way from [enemy] to the cell behind
    is not accepted. *)
Lemma move_to_behind_refused self c e r g :
  players_positions self !! index self = Some c →
  adjacent c e →
  e ∈ players_positions self →
  e ∈ naive_neighbors c (wall_parts self) →
  behind c e ∉ naive_neighbors e (wall_parts self) →
  move_to (behind c e) self = (r, g) →
  r = inl AssertionError
  ∨ r = inr (Some (py_format (py_format ERROR_JUMP "over") NEED_BEHIND_OVER)).
Proof.
  intros Hc Hadj Hp Hn Hb. rewrite move_to_unfold, Hc.
  destruct (in_grid _); [|intros [= <- _]; by left]. simpl.
  rewrite manhattan_behind, Hadj. simpl.
  unfold move_to_jump. destruct (bool_decide (_ ∈ JUMP_DIFFS)); [|intros [= <- _]; by left].
  rewrite bool_decide_eq_true_2.
  2:{ rewrite !elem_of_cons. revert Hadj.
      unfold adjacent, manhattan, behind, pos_sub, pos_add, pos_mul, row, col. simpl. lia. }
  unfold move_to_over. rewrite half_behind.
  rewrite decide_False by (intros Hf; by apply Hf).
  rewrite decide_False by (intros Hf; by apply Hf).
  rewrite decide_True by done. intros [= <- _]. by right.
Qed.

End jumps.

(** ** Properties of the engine *)

Section frame.

(** Every [return] of a message comes before the first assignment. *)
Lemma message_before_update (a : Action) (self self' : Game) (msg : string) :
  perform a self = (inr (Some msg), self') → self' = self.
Proof.
  destruct a as [destination|position hv]; simpl.
  - rewrite move_to_unfold. cbv zeta. repeat case_match; congruence.
  - rewrite add_wall_unfold. repeat case_match; congruence.
Qed.

(** C5. Atomicity of rejection: when [move_to] or [add_wall] returns a
    message, the object is in the state it had before the call: positions,
    wall counts, wall parts and turn are all unchanged. *)
Theorem rejection_is_atomic (a : Action) (self self' : Game) (msg : string) :
  perform a self = (inr (Some msg), self') → self' = self.
Proof. apply message_before_update. Qed.

(** C9. Frame of a wall placement: an accepted [add_wall] takes exactly one
    wall from the player whose turn it is, and leaves the count of the other
    player and the positions of both as they are; a rejected one leaves all
    the counts as they are. *)
Theorem add_wall_counts (position : Position) (hv : string) (self self' : Game)
    (r : option string) :
  add_wall position hv self = (inr r, self') →
  match r with
  | None =>
      ∃ count, count_walls self !! index self = Some count
               ∧ count_walls self' !! index self = Some (count - 1)
               ∧ (∀ j, j ≠ index self → count_walls self' !! j = count_walls self !! j)
               ∧ length (count_walls self') = length (count_walls self)
               ∧ players_positions self' = players_positions self
  | Some _ => count_walls self' = count_walls self
  end.
Proof.
  destruct r as [msg|].
  - intros H. by rewrite (message_before_update (Wall position hv) _ _ _ H).
  - intros (count & Hc & _ & _ & Hn)%add_wall_accepted.
    apply next_turn_frame in Hn as (_ & -> & _ & ->). simpl.
    exists count. split; [done|].
    apply lookup_lt_Some in Hc as Hlt.
    split; [by apply list_lookup_insert_eq|].
    split; [intros j Hj; by apply list_lookup_insert_ne|].
    split; [apply length_insert|done].
Qed.

(** C6. Turn progression for two players: after an accepted action of
    player [i], the turn stays with [i] when [i] stands on its goal row, and
    goes to [1 - i] otherwise. *)
Theorem turn_after_accepted (a : Action) (self self' : Game) :
  nb_players self = 2%nat →
  perform a self = (inr None, self') →
  ∃ won, has_win self' (Some (index self)) None = inr won
         ∧ index self' = if won then index self else (1 - index self)%nat.
Proof.
  intros Hnb. destruct a as [destination|position hv]; simpl.
  - intros (c & _ & _ & _ & Hn)%move_to_accepted.
    by apply (next_turn_index (move_to_commit self destination)).
  - intros (count & _ & _ & _ & Hn)%add_wall_accepted.
    by apply (next_turn_index (add_wall_commit self (new_wall_parts position hv) count)).
Qed.

(** C7. Order of the checks of [add_wall], for a cell of the grid and an
    orientation: without a wall left the answer is [ERROR_NO_WALL], whatever
    the geometry and the connectivity; otherwise, when a part of the new
    wall is already there, the answer is [ERROR_WALL_INTERSECTION], whatever
    the connectivity; the answers of [can_exit] only count when both checks
    are passed, and then they decide alone. *)
Theorem add_wall_precedence (position : Position) (hv : string) (self : Game)
    (count : Z) :
  in_grid position = true →
  hv = "h"%string ∨ hv = "v"%string →
  count_walls self !! index self = Some count →
  let parts := new_wall_parts position hv in
  (count = 0 → add_wall position hv self = (inr (Some ERROR_NO_WALL), self))
  ∧ (count ≠ 0 → (∃ part, part ∈ parts ∧ part ∈ wall_parts self) →
     add_wall position hv self = (inr (Some ERROR_WALL_INTERSECTION), self))
  ∧ (count ≠ 0 → (∀ part, part ∈ parts → part ∉ wall_parts self) →
     nb_players self = 2%nat → (index self < 2)%nat →
     ∀ ok0 ok1 : bool,
       can_exit self 0 (parts ∪ wall_parts self) = inr ok0 →
       can_exit self 1 (parts ∪ wall_parts self) = inr ok1 →
       (add_wall position hv self).1 =
       inr (if negb ok0
            then Some (if decide (0%nat = index self)
                       then ERROR_BLOCK_YOU else ERROR_BLOCK_HIM)
            else if negb ok1
            then Some (if decide (1%nat = index self)
                       then ERROR_BLOCK_YOU else ERROR_BLOCK_HIM)
            else None)).
Proof.
  intros Hg Hhv Hc parts. rewrite add_wall_unfold, Hg, Hc.
  assert (bool_decide (hv = "h"%string) || bool_decide (hv = "v"%string) = true) as ->.
  { destruct Hhv as [-> | ->]; reflexivity. }
  simpl. split; [by intros ->|].
  split.
  - intros Hne (part & Hp & Hw). apply Z.eqb_neq in Hne as ->.
    rewrite decide_True; [done|]. fold parts. set_solver.
  - intros Hne Hdis Hnb Hi ok0 ok1 H0 H1. apply Z.eqb_neq in Hne as ->.
    rewrite decide_False; [|fold parts; set_solver].
    rewrite Hnb. fold parts. simpl. rewrite H0. simpl.
    destruct ok0; simpl; [|by destruct (decide _)].
    rewrite H1. simpl.
    destruct ok1; simpl; [|by destruct (decide _)].
    unfold can_exit, getitem in H0, H1.
    assert (is_Some (players_positions self !! index self)) as [p Hp].
    { destruct (index self) as [|[|?]]; [| |lia].
      - destruct (players_positions self !! 0%nat); [by eexists|done].
      - destruct (players_positions self !! 1%nat); [by eexists|done]. }
    destruct (next_turn_ok (add_wall_commit self parts count) p) as [g ->]; done.
Qed.

(** C10. A move of one cell does not look at who stands on the destination:
    a cell of the grid next to the player, with no wall part between, is
    accepted, also when the other player is on it, and then both players
    are on the same cell. *)
Theorem move_to_ignores_occupancy (destination current_position : Position)
    (self : Game) :
  in_grid destination = true →
  players_positions self !! index self = Some current_position →
  adjacent current_position destination →
  midpoint (fine current_position) (fine destination) ∉ wall_parts self →
  nb_players self = 2%nat → (index self < 2)%nat →
  ∃ self', move_to destination self = (inr None, self')
           ∧ players_positions self' !! index self = Some destination
           ∧ ∀ j, j ≠ index self →
                  players_positions self' !! j = players_positions self !! j.
Proof.
  intros Hg Hc Hadj Hw Hnb Hi. rewrite move_to_unfold, Hg, Hc. simpl.
  unfold adjacent in Hadj. rewrite Hadj. simpl.
  rewrite bool_decide_eq_false_2.
  2:{ intros Hn. apply Hn. apply step_spec. by rewrite <-midpoint_fine. }
  apply lookup_lt_Some in Hc as Hlt.
  destruct (next_turn_ok (move_to_commit self destination) destination) as [g Hn];
    [by apply list_lookup_insert_eq|done..|].
  rewrite Hn. exists g. split; [done|].
  apply next_turn_frame in Hn as (_ & -> & _). simpl.
  split; [by apply list_lookup_insert_eq|].
  intros j Hj. by apply list_lookup_insert_ne.
Qed.

End frame.

Section diagonal.

(** C3. A diagonal move is accepted only beside an enemy that stands next to
    the player and next to the destination, with no wall part on either
    side, and such that the cell behind the enemy is off the grid or cut off
    from the enemy by a wall part: the straight jump over that enemy is not
    accepted.  In the position of Scenario B (player 0 on (7,4), the other
    player on (6,4), a wall part in the slot (11,8) between (6,4) and (5,4),
    no wall part around otherwise) the move to (5,4) is refused and the moves
    to (6,3) and (6,5) are accepted. *)
Theorem diagonal_move_is_fallback :
  (∀ (destination current_position : Position) (self self' : Game),
     players_positions self !! index self = Some current_position →
     Z.abs (row (destination - current_position)%pos) = 1 →
     Z.abs (col (destination - current_position)%pos) = 1 →
     move_to destination self = (inr None, self') →
     ∃ enemy,
       enemy ∈ players_positions self
       ∧ adjacent current_position enemy ∧ adjacent enemy destination
       ∧ step (wall_parts self) current_position enemy
       ∧ step (wall_parts self) enemy destination
       ∧ (in_grid (behind current_position enemy) = false
          ∨ midpoint (fine enemy) (fine (behind current_position enemy))
            ∈ wall_parts self)
       ∧ ∀ r g, move_to (behind current_position enemy) self = (r, g) → r ≠ inr None)
  ∧ (∀ self : Game,
       nb_players self = 2%nat → index self = 0%nat →
       players_positions self = [(7, 4); (6, 4)] →
       (11, 8) ∈ wall_parts self →
       (13, 8) ∉ wall_parts self → (12, 7) ∉ wall_parts self →
       (12, 9) ∉ wall_parts self →
       move_to (5, 4) self
       = (inr (Some "To jump over an enemy, you need no wall behind him/her."%string),
          self)
       ∧ (∃ self', move_to (6, 3) self = (inr None, self')
                   ∧ players_positions self' = [(6, 3); (6, 4)])
       ∧ (∃ self', move_to (6, 5) self = (inr None, self')
                   ∧ players_positions self' = [(6, 5); (6, 4)])).
Proof.
  split.
  - intros d c self self' Hc Hrow Hcol. rewrite move_to_unfold, Hc.
    destruct (in_grid d); [|done]. simpl.
    assert (manhattan c d = 2) as ->.
    { revert Hrow Hcol. unfold manhattan, pos_sub, row, col. simpl. lia. }
    simpl. unfold move_to_jump.
    destruct (bool_decide (_ ∈ JUMP_DIFFS)); [|done].
    rewrite bool_decide_eq_false_2.
    2:{ rewrite !elem_of_cons, elem_of_nil. lia. }
    destruct (move_to_beside self c d) eqn:Hb; [done|]. intros _.
    apply move_to_beside_None in Hb as (e & Hp & H1 & H2 & H3 & H4 & H5).
    exists e. repeat (split; [done|]). split.
    + destruct H4 as [?|H4]; [by left|].
      destruct (in_grid (behind c e)) eqn:Hg; [right|by left].
      rewrite midpoint_fine.
      destruct (decide ((e + behind c e)%pos ∈ wall_parts self)) as [|Hw]; [done|].
      exfalso. apply H4. apply step_spec. auto using adjacent_behind.
    + intros r g Hm. destruct H4 as [Hg|H4].
      * rewrite move_to_unfold, Hg in Hm. by injection Hm as <- _.
      * by destruct (move_to_behind_refused self c e r g Hc H1 Hp H3 H4 Hm) as [-> | ->].
  - intros self Hnb Hi Hpp H11 H13 H127 H129.
    assert (step (wall_parts self) (7, 4) (6, 4)) as S1 by (by apply step_spec).
    assert (¬ step (wall_parts self) (6, 4) (5, 4)) as S2.
    { rewrite step_spec. intros (_ & _ & []). done. }
    assert (step (wall_parts self) (6, 4) (6, 3)) as S3 by (by apply step_spec).
    assert (step (wall_parts self) (6, 4) (6, 5)) as S4 by (by apply step_spec).
    assert (∀ d, d = (6, 3) ∨ d = (6, 5) →
              ∃ self', move_to d self = (inr None, self')
                       ∧ players_positions self' = [d; (6, 4)]) as Hdiag.
    { intros d Hd. rewrite move_to_unfold, Hpp, Hi.
      assert (in_grid d = true) as -> by (by destruct Hd as [-> | ->]).
      simpl. assert (manhattan (7, 4) d = 2) as -> by (by destruct Hd as [-> | ->]).
      simpl. unfold move_to_jump.
      assert (bool_decide ((d - (7, 4))%pos ∈ JUMP_DIFFS) = true) as ->
        by (by destruct Hd as [-> | ->]; vm_compute).
      assert (bool_decide (0 ∈ [row (d - (7, 4))%pos; col (d - (7, 4))%pos]) = false) as ->
        by (by destruct Hd as [-> | ->]; vm_compute).
      rewrite (proj2 (move_to_beside_None self (7, 4) d)).
      2:{ exists (6, 4). rewrite Hpp. split; [right; left|].
          split; [done|]. split; [by destruct Hd as [-> | ->]|].
          split; [done|]. split; [by right|]. by destruct Hd as [-> | ->]. }
      destruct (next_turn_ok (move_to_commit self d) d) as [g Hn].
      { simpl. by rewrite Hpp, Hi. }
      { simpl. lia. }
      { done. }
      rewrite Hn. exists g. split; [done|].
      apply next_turn_frame in Hn as (_ & -> & _). simpl. by rewrite Hpp, Hi. }
    split; [|split; apply Hdiag; auto].
    rewrite move_to_unfold, Hpp, Hi. simpl.
    unfold move_to_jump. rewrite bool_decide_eq_true_2 by (by vm_compute).
    rewrite bool_decide_eq_true_2 by (right; left).
    unfold move_to_over. rewrite Hpp.
    change ((7, 4) + ((5, 4) - (7, 4)) // 2)%pos with ((6, 4) : Position).
    rewrite decide_False by (intros Hf; apply Hf; right; left).
    rewrite decide_False by (intros Hf; by apply Hf).
    rewrite decide_True by done. reflexivity.
Qed.

End diagonal.

Section connectivity.

(** What [can_exit] answers only depends on the position of the player. *)
Lemma can_exit_true_iff self i wp s win :
  players_positions self !! i = Some s →
  PLAYER_HAS_WIN !! i = Some win →
  can_exit self i wp = inr true ↔ ∃ t, tc (step wp) s t ∧ win t = true.
Proof.
  intros Hs Hwin.
  destruct (can_exit_spec self i wp win Hwin s Hs) as (b & -> & Hb).
  rewrite <-Hb. split; congruence.
Qed.

(** The way an accepted move takes runs along steps of the search. *)
Lemma move_to_jump_path self c d :
  move_to_jump self c d = inr None → tc (step (wall_parts self)) c d.
Proof.
  unfold move_to_jump. destruct (bool_decide (_ ∈ JUMP_DIFFS)); [|done].
  destruct (bool_decide (0 ∈ _)).
  - unfold move_to_over. repeat (destruct (decide (_ ∉ _)) as [|?%dec_stable]; [done|]).
    intros _. eapply tc_l; [|apply tc_once]; eassumption.
  - destruct (move_to_beside self c d) eqn:Hb; [done|]. intros _.
    apply move_to_beside_None in Hb as (e & _ & _ & _ & H1 & _ & H2).
    eapply tc_l; [|apply tc_once]; eassumption.
Qed.

Lemma move_to_path destination self self' :
  move_to destination self = (inr None, self') →
  ∃ current_position,
    players_positions self !! index self = Some current_position
    ∧ tc (step (wall_parts self)) current_position destination
    ∧ nb_players self' = nb_players self
    ∧ players_positions self'
      = <[index self := destination]> (players_positions self)
    ∧ wall_parts self' = wall_parts self.
Proof.
  intros (c & Hg & Hc & Hd & Hn)%move_to_accepted. exists c. split; [done|].
  apply next_turn_frame in Hn as (-> & -> & -> & _).
  split; [|done]. destruct Hd as [[_ H]|[_ H]]; [by apply tc_once|].
  by apply move_to_jump_path.
Qed.

(** The loop of [add_wall] runs to its end only when [can_exit] answers
    [True] for every index. *)
Lemma add_wall_for_None self wp indices :
  add_wall_for self wp indices = inr None →
  ∀ i, i ∈ indices → can_exit self i wp = inr true.
Proof.
  induction indices as [|a indices IH]; simpl.
  - intros _ i Hi. by apply elem_of_nil in Hi.
  - destruct (can_exit self a wp) as [e|[]] eqn:Ha; simpl.
    + intros [=].
    + intros Hfor i [->|Hi]%elem_of_cons; [exact Ha|exact (IH Hfor i Hi)].
    + destruct (decide (a = index self)); intros [=].
Qed.

Lemma game_invariant_init : game_invariant init.
Proof.
  split; [done|]. split; [done|]. split.
  - intros p. unfold init, PLAYER_STARTS. simpl. rewrite !elem_of_cons, elem_of_nil.
    by intros [->|[->|[]]].
  - intros [|[|i]] Hi; [by vm_compute..|lia].
Qed.

Lemma game_invariant_move destination self self' :
  game_invariant self →
  move_to destination self = (inr None, self') →
  game_invariant self'.
Proof.
  intros (Hnb & Hlen & Hgrid & Hexit) Hm.
  pose proof Hm as (_ & Hg & _)%move_to_accepted.
  apply move_to_path in Hm as (c & Hc & Hpath & Hnb' & Hpp & Hwp).
  unfold game_invariant. rewrite Hnb', Hpp, Hwp.
  split; [done|]. split; [by rewrite length_insert|]. split.
  - intros p [j Hj]%list_elem_of_lookup.
    apply list_lookup_insert_Some in Hj as [(_ & <- & _)|[_ Hj]]; [done|].
    apply Hgrid. apply list_elem_of_lookup. by exists j.
  - intros i Hi.
    destruct (lookup_lt_is_Some_2 PLAYER_HAS_WIN i) as [win Hwin]; [done|].
    destruct (lookup_lt_is_Some_2 (players_positions self) i) as [s Hs]; [lia|].
    pose proof (Hexit i Hi) as Hold.
    apply (can_exit_true_iff self i _ s win Hs Hwin) in Hold as (t & Ht & Hwt).
    destruct (decide (i = index self)) as [->|Hne].
    + apply (can_exit_true_iff _ _ _ destination win); [|done|].
      { rewrite Hpp. apply list_lookup_insert_eq. by apply lookup_lt_Some in Hc. }
      exists t. split; [|done]. assert (s = c) as -> by congruence.
      etrans; [|exact Ht]. apply tc_step_sym; [|done].
      apply Hgrid. apply list_elem_of_lookup. by exists (index self).
    + apply (can_exit_true_iff _ _ _ s win); [|done|by exists t].
      rewrite Hpp. by rewrite list_lookup_insert_ne.
Qed.

Lemma game_invariant_wall position hv self self' :
  game_invariant self →
  add_wall position hv self = (inr None, self') →
  game_invariant self'.
Proof.
  intros (Hnb & Hlen & Hgrid & Hexit) (count & _ & _ & Hfor & Hn)%add_wall_accepted.
  apply next_turn_frame in Hn as (Hnb' & Hpp & Hwp & _). simpl in *.
  split; [congruence|]. split; [congruence|]. split; [by rewrite Hpp|].
  assert (wall_parts self'
          = new_wall_parts position hv ∪ wall_parts self) as ->.
  { rewrite Hwp. apply set_eq. intros x. rewrite !elem_of_union. tauto. }
  intros i Hi.
  destruct (lookup_lt_is_Some_2 PLAYER_HAS_WIN i) as [win Hwin]; [exact Hi|].
  destruct (lookup_lt_is_Some_2 (players_positions self) i) as [s Hs]; [lia|].
  apply (can_exit_true_iff self' i _ s win); [by rewrite Hpp|exact Hwin|].
  apply (can_exit_true_iff self i _ s win Hs Hwin).
  apply (add_wall_for_None _ _ _ Hfor). apply elem_of_seq. lia.
Qed.

Lemma reachable_invariant self : reachable self → game_invariant self.
Proof.
  induction 1 as [|self a self' _ IH Ha]; [apply game_invariant_init|].
  destruct a; simpl in Ha;
    eauto using game_invariant_move, game_invariant_wall.
Qed.

Lemma reachable_play actions self :
  reachable self → all_accepted actions self = true → reachable (play actions self).
Proof.
  revert self. induction actions as [|a actions IH]; intros self Hr Hall; [done|].
  cbn [all_accepted] in Hall.
  destruct (perform a self) as [[e|[msg|]] self'] eqn:Ha; [done..|].
  assert (play (a :: actions) self = play actions self') as ->.
  { unfold play. cbn [foldl]. by rewrite Ha. }
  apply IH; [|done]. by eapply reachable_perform.
Qed.

Lemma rtc_edge_in_grid wp a b :
  in_grid a = true → rtc (edge wp) a b → in_grid b = true.
Proof.
  intros Ha Hab. induction Hab as [|a b c (_ & Hb & _) _ IH]; [exact Ha|].
  apply IH, Hb.
Qed.

(** C1. Connectivity invariant: in every state that accepted moves and
    accepted walls lead to from the initial state, every player [i] (0 and 1,
    the indices of [PLAYER_HAS_WIN]) stands on a cell [p] of the grid from
    which a path of edges of the cell graph, none of them cut by a wall part
    of the state, leads to a cell [t] of the grid on which the player has
    won: a cell of row 0 for player 0 and of row 8 for player 1.  And
    [can_exit] answers [True] for that player on the wall parts of the
    state. *)
Theorem connectivity_invariant (self : Game) (i : nat) (win : Position → bool) :
  reachable self →
  PLAYER_HAS_WIN !! i = Some win →
  ∃ p t,
    players_positions self !! i = Some p
    ∧ in_grid p = true
    ∧ rtc (edge (wall_parts self)) p t
    ∧ in_grid t = true
    ∧ win t = true
    ∧ row t = (if decide (i = 0%nat) then 0 else 8)
    ∧ can_exit self i (wall_parts self) = inr true.
Proof.
  intros (_ & Hlen & Hgrid & Hexit)%reachable_invariant Hwin.
  assert (i < 2)%nat as Hi by exact (lookup_lt_Some _ _ _ Hwin).
  destruct (lookup_lt_is_Some_2 (players_positions self) i) as [p Hp]; [lia|].
  assert (in_grid p = true) as Hg.
  { apply Hgrid. apply list_elem_of_lookup. exists i. exact Hp. }
  pose proof (Hexit i Hi) as Hex.
  destruct (proj1 (can_exit_true_iff self i _ p win Hp Hwin) Hex)
    as (t & Hpath & Hwt).
  apply (tc_step_edge _ _ _ Hg), tc_rtc in Hpath.
  exists p, t. split; [exact Hp|]. split; [exact Hg|]. split; [exact Hpath|].
  split; [exact (rtc_edge_in_grid _ _ _ Hg Hpath)|]. split; [exact Hwt|].
  split; [|exact Hex].
  clear Hex Hpath Hexit Hgrid Hp.
  destruct i as [|[|i]]; cbn in Hwin; [| |lia];
    injection Hwin as <-; apply Z.eqb_eq in Hwt; exact Hwt.
Qed.

End connectivity.

Section reachability.

(** C4, as the code has it.  The neighbours [naive_neighbors] yields for a
    cell of the grid are the ends of its edges: both cells in the grid,
    adjacent, and the midpoint of their fine coordinates (their sum) not a
    wall part.  For a player on the grid [can_exit] raises nothing and
    answers [True] exactly when a cell of the goal row is at the end of a
    path of one edge or more from the position of the player; when the
    player is not on its goal row this is plain reachability.  [can_exit] is
    a function of the state and returns no state: it changes nothing. *)
Theorem can_exit_reachability :
  (∀ (wp : gset Position) (a b : Position),
     in_grid a = true →
     b ∈ naive_neighbors a wp ↔ edge wp a b)
  ∧ (∀ (wp : gset Position) (a b : Position),
       edge wp a b ↔
       in_grid a = true ∧ in_grid b = true ∧ adjacent a b ∧ (a + b)%pos ∉ wp)
  ∧ (∀ (self : Game) (i : nat) (wp : gset Position) (s : Position)
       (win : Position → bool),
       players_positions self !! i = Some s →
       in_grid s = true →
       PLAYER_HAS_WIN !! i = Some win →
       ∃ b : bool,
         can_exit self i wp = inr b
         ∧ (b = true ↔ ∃ t, tc (edge wp) s t ∧ win t = true)
         ∧ (win s = false →
            b = true ↔ ∃ t, rtc (edge wp) s t ∧ win t = true)).
Proof.
  split; [intros wp a b Ha; by apply step_edge|].
  split; [intros wp a b; unfold edge; by rewrite midpoint_fine|].
  intros self i wp s win Hs Hg Hwin.
  destruct (can_exit_spec self i wp win Hwin s Hs) as (b & Hb & Hiff).
  exists b. split; [exact Hb|].
  assert (b = true ↔ ∃ t, tc (edge wp) s t ∧ win t = true) as Htc.
  { rewrite Hiff. split; intros (t & Ht & Hw); exists t; (split; [|exact Hw]);
      by apply (tc_step_edge wp s t Hg). }
  split; [exact Htc|]. intros Hns. rewrite Htc.
  split; intros (t & Ht & Hw); exists t; (split; [|exact Hw]).
  - by apply tc_rtc.
  - apply rtc_tc in Ht as [<-|Ht]; [congruence|exact Ht].
Qed.

Lemma can_exit_reachability_witness :
  ∃ b : bool,
    can_exit init 0 ∅ = inr b
    ∧ (b = true ↔ ∃ t, tc (edge ∅) (8, 4) t ∧ (row t =? 0) = true)
    ∧ ((row (8, 4) =? 0) = false →
       b = true ↔ ∃ t, rtc (edge ∅) (8, 4) t ∧ (row t =? 0) = true).
Proof.
  apply (proj2 (proj2 can_exit_reachability) init 0%nat ∅ (8, 4) (λ pos, row pos =? 0));
    reflexivity.
Defined.

(** C4, as it is worded, fails for a player that stands on its goal row
    with a wall part on every side: in [corner_state], on the wall parts
    that [add_wall((0,8), 'h')] tries, player 0 stands on the cell (0,8) of
    its goal row, which is reachable from itself, and [can_exit] answers
    [False]. *)
Lemma can_exit_reachability_counterexample :
  reachable corner_state
  ∧ players_positions corner_state !! 0%nat = Some (0, 8)
  ∧ in_grid (0, 8) = true
  ∧ has_win corner_state (Some 0%nat) (Some (0, 8)) = inr true
  ∧ rtc (edge corner_candidate) (0, 8) (0, 8)
  ∧ can_exit corner_state 0 corner_candidate = inr false
  ∧ ¬ (can_exit corner_state 0 corner_candidate = inr true
       ↔ ∃ t, rtc (edge corner_candidate) (0, 8) t
              ∧ has_win corner_state (Some 0%nat) (Some t) = inr true).
Proof.
  split; [apply reachable_play; [apply reachable_init|by vm_compute]|].
  split; [by vm_compute|]. split; [done|]. split; [done|].
  split; [apply rtc_refl|].
  assert (can_exit corner_state 0 corner_candidate = inr false) as Hf
    by (by vm_compute).
  split; [exact Hf|]. intros [_ H]. rewrite Hf in H.
  discriminate H. exists (0, 8). split; [apply rtc_refl|done].
Qed.

End reachability.

Section wall_parts.

(** C2, as the code has it.  The parts of a wall at [position] are
    [2 * position + secondary + n * primary] for [n] in 0, 1, 2, where
    [primary] is (1,0) for a vertical wall and (0,1) for a horizontal one,
    and [secondary] is (0,1) for a vertical wall and (1,0) for a horizontal
    one; an accepted [add_wall] adds exactly these parts to the wall parts of
    the game. *)
Theorem add_wall_parts (position : Position) (hv : string) :
  let vertical := bool_decide (hv = "v"%string) in
  new_wall_parts position hv
  = parts_along position (primary vertical) (secondary vertical)
  ∧ ∀ self self' : Game,
      add_wall position hv self = (inr None, self') →
      wall_parts self'
      = wall_parts self ∪ parts_along position (primary vertical) (secondary vertical).
Proof.
  intros vertical.
  assert (new_wall_parts position hv
          = parts_along position (primary vertical) (secondary vertical)) as Hparts.
  { unfold new_wall_parts, vertical. by destruct (bool_decide (hv = "v"%string)). }
  split; [exact Hparts|].
  intros self self' (count & _ & _ & _ & Hn)%add_wall_accepted.
  apply next_turn_frame in Hn as (_ & _ & -> & _). simpl. rewrite <-Hparts.
  apply set_eq. intros x. rewrite !elem_of_union. tauto.
Qed.

Lemma add_wall_parts_witness :
  new_wall_parts (7, 4) "v"
  = parts_along (7, 4) (primary true) (secondary true)
  ∧ wall_parts (add_wall (7, 4) "v" init).2
    = wall_parts init ∪ parts_along (7, 4) (primary true) (secondary true).
Proof.
  split; [apply (add_wall_parts (7, 4) "v")|].
  apply (proj2 (add_wall_parts (7, 4) "v") init). by vm_compute.
Defined.

(** C2, as it is worded, fails: the vertical wall at (0,0) is accepted in
    the initial state and its parts are (0,1), (1,1), (2,1), in the column
    of fine coordinates between the columns 0 and 1 of cells, and not the
    parts (1,0), (1,1), (1,2) of the claimed directions. *)
Lemma add_wall_parts_counterexample :
  in_grid (0, 0) = true
  ∧ new_wall_parts (0, 0) "v" = {[ (0, 1); (1, 1); (2, 1) ]}
  ∧ parts_along (0, 0) (claimed_primary true) (claimed_secondary true)
    = {[ (1, 0); (1, 1); (1, 2) ]}
  ∧ (∃ self', add_wall (0, 0) "v" init = (inr None, self')
              ∧ wall_parts self' = {[ (0, 1); (1, 1); (2, 1) ]})
  ∧ new_wall_parts (0, 0) "v"
    ≠ parts_along (0, 0) (claimed_primary true) (claimed_secondary true).
Proof.
  split; [done|]. split; [by vm_compute|]. split; [by vm_compute|].
  split; [eexists; split; by vm_compute|].
  intros H. assert ((0, 1) ∈ new_wall_parts (0, 0) "v") as Hin by (by vm_compute).
  rewrite H in Hin. by vm_compute in Hin.
Qed.

End wall_parts.

Section messages.

Lemma move_to_beside_message self c d msg :
  move_to_beside self c d = Some msg → msg ∈ MOVE_MESSAGES.
Proof.
  unfold move_to_beside, MOVE_MESSAGES.
  repeat (destruct (decide (_ = [])); [intros [= <-]; set_solver|]). done.
Qed.

Lemma move_to_over_message self c d diff msg :
  move_to_over self c d diff = Some msg → msg ∈ MOVE_MESSAGES.
Proof.
  unfold move_to_over, MOVE_MESSAGES.
  repeat (destruct (decide (_ ∉ _)); [intros [= <-]; set_solver|]). done.
Qed.

(** C8, as the code has it.  The messages are a closed list, eight for
    [move_to] and four for [add_wall], all different.  A straight move of
    two cells over a cell no player stands on is refused with
    [ERROR_FAR_AWAY], the very message of a move of more than two cells:
    the two cases are not told apart. *)
Theorem rejection_messages :
  (∀ (destination : Position) (self self' : Game) (msg : string),
     move_to destination self = (inr (Some msg), self') → msg ∈ MOVE_MESSAGES)
  ∧ (∀ (position : Position) (hv : string) (self self' : Game) (msg : string),
       add_wall position hv self = (inr (Some msg), self') → msg ∈ WALL_MESSAGES)
  ∧ NoDup (MOVE_MESSAGES ++ WALL_MESSAGES)
  ∧ (∀ (destination current_position : Position) (self : Game),
       in_grid destination = true →
       players_positions self !! index self = Some current_position →
       let diff := (destination - current_position)%pos in
       (manhattan current_position destination = 2
        ∧ (row diff = 0 ∨ col diff = 0)
        ∧ (current_position + diff // 2)%pos ∉ players_positions self
        ∨ 2 < manhattan current_position destination) →
       move_to destination self = (inr (Some ERROR_FAR_AWAY), self)).
Proof.
  split; [|split; [|split]].
  - intros d self self' msg. rewrite move_to_unfold. cbv zeta.
    destruct (in_grid d); [|done].
    destruct (players_positions self !! index self) as [c|]; [|done].
    destruct (_ =? 0); [intros [= <- _]; set_solver|].
    destruct (2 <? _); [intros [= <- _]; set_solver|].
    destruct (_ && _); [intros [= <- _]; set_solver|].
    destruct (_ =? 2).
    + unfold move_to_jump. destruct (bool_decide (_ ∈ JUMP_DIFFS)); [|done].
      destruct (bool_decide (0 ∈ _)).
      * destruct (move_to_over _ _ _ _) as [m|] eqn:Hm.
        -- intros [= <- _]. by eapply move_to_over_message.
        -- by destruct (next_turn _) as [[e|[]] g].
      * destruct (move_to_beside _ _ _) as [m|] eqn:Hm.
        -- intros [= <- _]. by eapply move_to_beside_message.
        -- by destruct (next_turn _) as [[e|[]] g].
    + by destruct (next_turn _) as [[e|[]] g].
  - intros position hv self self' msg. rewrite add_wall_unfold.
    destruct (in_grid position && _); [|done].
    destruct (count_walls self !! index self) as [count|]; [|done].
    destruct (count =? 0); [intros [= <- _]; set_solver|].
    destruct (decide _); [intros [= <- _]; set_solver|].
    destruct (add_wall_for _ _ _) as [e|[m|]] eqn:Hfor; [done| |].
    + intros [= <- _]. clear -Hfor. revert Hfor.
      induction (seq 0 (nb_players self)) as [|a l IH]; [done|]. simpl.
      destruct (can_exit self a _) as [e|[]]; simpl; [done|exact IH|].
      destruct (decide _); intros [= <-]; set_solver.
    + by destruct (next_turn _) as [[e|[]] g].
  - apply (bool_decide_unpack (NoDup (MOVE_MESSAGES ++ WALL_MESSAGES))). by vm_compute.
  - intros d c self Hg Hc diff Hcase. rewrite move_to_unfold, Hg, Hc. cbv zeta.
    destruct Hcase as [(Hd & Hz & He)|Hd].
    + rewrite Hd. simpl. unfold move_to_jump. fold diff.
      assert (diff ∈ JUMP_DIFFS) as Hj.
      { revert Hd Hz. unfold diff, manhattan, pos_sub, row, col. simpl.
        destruct c as [c1 c2], d as [d1 d2]. simpl. intros Hd Hz.
        assert ((d1 - c1 = -2 ∧ d2 - c2 = 0) ∨ (d1 - c1 = 2 ∧ d2 - c2 = 0)
                ∨ (d1 - c1 = 0 ∧ d2 - c2 = -2) ∨ (d1 - c1 = 0 ∧ d2 - c2 = 2))
          as [[-> ->]|[[-> ->]|[[-> ->]|[-> ->]]]] by lia; by vm_compute. }
      rewrite bool_decide_eq_true_2 by exact Hj.
      rewrite bool_decide_eq_true_2.
      2:{ rewrite !elem_of_cons. destruct Hz as [-> | ->]; auto. }
      unfold move_to_over. by rewrite decide_True.
    + destruct (_ =? 0) eqn:H0; [lia|].
      by destruct (2 <? _) eqn:H2; [|lia].
Qed.

Lemma rejection_messages_witness :
  move_to (6, 4) init = (inr (Some ERROR_FAR_AWAY), init)
  ∧ ERROR_GHOST ∈ MOVE_MESSAGES
  ∧ ERROR_BLOCK_YOU ∈ WALL_MESSAGES.
Proof.
  split; [|split].
  - apply (proj2 (proj2 (proj2 rejection_messages)) (6, 4) (8, 4) init);
      [reflexivity..|].
    left. split; [reflexivity|]. split; [by right|]. decide_by_compute.
  - apply (proj1 rejection_messages (7, 4) ghost_state ghost_state).
    by vm_compute.
  - apply (proj1 (proj2 rejection_messages) (0, 8) "h" corner_state corner_state).
    by vm_compute.
Defined.

(** C8, as it is worded, fails: from the initial state the move to (6,4),
    two cells straight over the empty cell (7,4), and the move to (5,4),
    three cells away, are refused with the same message. *)
Lemma rejection_messages_counterexample :
  players_positions init !! index init = Some (8, 4)
  ∧ manhattan (8, 4) (6, 4) = 2
  ∧ ((7, 4) ∉ players_positions init)
  ∧ manhattan (8, 4) (5, 4) = 3
  ∧ move_to (6, 4) init = (inr (Some ERROR_FAR_AWAY), init)
  ∧ move_to (5, 4) init = (inr (Some ERROR_FAR_AWAY), init).
Proof.
  split; [done|]. split; [done|]. split; [decide_by_compute|].
  split; [done|]. split; by vm_compute.
Qed.

End messages.

Section witnesses.

Lemma disjoint_parts (A B : gset Position) :
  A ∩ B = ∅ → ∀ part, part ∈ A → part ∉ B.
Proof.
  intros H part HA HB. assert (part ∈ A ∩ B) as Hin by (by apply elem_of_intersection).
  rewrite H in Hin. by apply not_elem_of_empty in Hin.
Qed.

Lemma reachable_corner_state : reachable corner_state.
Proof. apply reachable_play; [apply reachable_init|vm_compute; reflexivity]. Qed.

Lemma connectivity_invariant_witness :
  reachable corner_state
  ∧ PLAYER_HAS_WIN !! 1%nat = Some (λ pos, row pos =? 8)
  ∧ ∃ p t,
      players_positions corner_state !! 1%nat = Some p
      ∧ in_grid p = true
      ∧ rtc (edge (wall_parts corner_state)) p t
      ∧ in_grid t = true
      ∧ (row t =? 8) = true
      ∧ row t = (if decide (1%nat = 0%nat) then 0 else 8)
      ∧ can_exit corner_state 1 (wall_parts corner_state) = inr true.
Proof.
  split; [exact reachable_corner_state|]. split; [reflexivity|].
  exact (connectivity_invariant corner_state 1 (λ pos, row pos =? 8)
           reachable_corner_state eq_refl).
Defined.

Lemma rejection_is_atomic_witness :
  (perform (Move (6, 4)) init).2 = init
  ∧ (perform (Wall (0, 8) "h") corner_state).2 = corner_state.
Proof.
  split.
  - apply (rejection_is_atomic (Move (6, 4)) init _ ERROR_FAR_AWAY). vm_compute; reflexivity.
  - apply (rejection_is_atomic (Wall (0, 8) "h") corner_state _ ERROR_BLOCK_YOU).
    vm_compute; reflexivity.
Defined.

Lemma add_wall_counts_witness :
  (∃ count, count_walls init !! index init = Some count
            ∧ count_walls first_wall_state !! index init = Some (count - 1)
            ∧ (∀ j, j ≠ index init →
                    count_walls first_wall_state !! j = count_walls init !! j)
            ∧ length (count_walls first_wall_state) = length (count_walls init)
            ∧ players_positions first_wall_state = players_positions init)
  ∧ count_walls (add_wall (7, 4) "v" first_wall_state).2
    = count_walls first_wall_state.
Proof.
  split.
  - apply (add_wall_counts (7, 4) "h" init first_wall_state None). vm_compute; reflexivity.
  - apply (add_wall_counts (7, 4) "v" first_wall_state _
             (Some ERROR_WALL_INTERSECTION)).
    vm_compute; reflexivity.
Defined.

Lemma turn_after_accepted_witness :
  (∃ won, has_win (perform (Move (7, 4)) init).2 (Some (index init)) None = inr won
          ∧ index (perform (Move (7, 4)) init).2
            = if won then index init else (1 - index init)%nat)
  ∧ (∃ won, has_win (perform (Move (0, 4)) approach_state).2
              (Some (index approach_state)) None = inr won
            ∧ index (perform (Move (0, 4)) approach_state).2
              = if won then index approach_state
                else (1 - index approach_state)%nat).
Proof.
  split.
  - apply (turn_after_accepted (Move (7, 4)) init); [reflexivity|vm_compute; reflexivity].
  - apply (turn_after_accepted (Move (0, 4)) approach_state); vm_compute; reflexivity.
Defined.

Lemma add_wall_precedence_witness :
  add_wall (7, 7) "h" walls_state = (inr (Some ERROR_NO_WALL), walls_state)
  ∧ add_wall (7, 4) "v" first_wall_state
    = (inr (Some ERROR_WALL_INTERSECTION), first_wall_state)
  ∧ (add_wall (0, 8) "h" corner_state).1 = inr (Some ERROR_BLOCK_YOU).
Proof.
  split; [|split].
  - assert (count_walls walls_state !! index walls_state = Some 0) as Hc
      by (vm_compute; reflexivity).
    apply (add_wall_precedence (7, 7) "h" walls_state 0 eq_refl (or_introl eq_refl) Hc).
    reflexivity.
  - assert (count_walls first_wall_state !! index first_wall_state = Some 10) as Hc
      by (vm_compute; reflexivity).
    apply (add_wall_precedence (7, 4) "v" first_wall_state 10 eq_refl
             (or_intror eq_refl) Hc); [done|].
    exists (15, 9). split; decide_by_compute.
  - assert (count_walls corner_state !! index corner_state = Some 9) as Hc
      by (vm_compute; reflexivity).
    assert (9 ≠ 0) as Hne by done.
    assert (∀ part, part ∈ new_wall_parts (0, 8) "h" → part ∉ wall_parts corner_state)
      as Hd by (apply disjoint_parts; decide_by_compute).
    assert (nb_players corner_state = 2%nat) as Hnb by (vm_compute; reflexivity).
    assert (index corner_state < 2)%nat as Hi by (vm_compute; lia).
    assert (can_exit corner_state 0 (new_wall_parts (0, 8) "h" ∪ wall_parts corner_state)
            = inr false) as H0 by (vm_compute; reflexivity).
    assert (can_exit corner_state 1 (new_wall_parts (0, 8) "h" ∪ wall_parts corner_state)
            = inr true) as H1 by (vm_compute; reflexivity).
    etrans; [|vm_compute; reflexivity].
    exact (proj2 (proj2 (add_wall_precedence (0, 8) "h" corner_state 9 eq_refl
                           (or_introl eq_refl) Hc))
             Hne Hd Hnb Hi false true H0 H1).
Defined.

Lemma move_to_ignores_occupancy_witness :
  players_positions meeting_state !! 0%nat = Some (4, 4)
  ∧ ∃ self', move_to (4, 4) meeting_state = (inr None, self')
             ∧ players_positions self' !! index meeting_state = Some (4, 4)
             ∧ ∀ j, j ≠ index meeting_state →
                    players_positions self' !! j = players_positions meeting_state !! j.
Proof.
  split; [vm_compute; reflexivity|].
  apply (move_to_ignores_occupancy (4, 4) (3, 4) meeting_state);
    [reflexivity|vm_compute; reflexivity|vm_compute; reflexivity
    |decide_by_compute|vm_compute; reflexivity|vm_compute; lia].
Defined.

Lemma diagonal_move_is_fallback_witness :
  (∃ enemy,
     enemy ∈ players_positions scenario_b
     ∧ adjacent (7, 4) enemy ∧ adjacent enemy (6, 3)
     ∧ step (wall_parts scenario_b) (7, 4) enemy
     ∧ step (wall_parts scenario_b) enemy (6, 3)
     ∧ (in_grid (behind (7, 4) enemy) = false
        ∨ midpoint (fine enemy) (fine (behind (7, 4) enemy)) ∈ wall_parts scenario_b)
     ∧ ∀ r g, move_to (behind (7, 4) enemy) scenario_b = (r, g) → r ≠ inr None)
  ∧ (move_to (5, 4) scenario_b
     = (inr (Some "To jump over an enemy, you need no wall behind him/her."%string),
        scenario_b)
     ∧ (∃ self', move_to (6, 3) scenario_b = (inr None, self')
                 ∧ players_positions self' = [(6, 3); (6, 4)])
     ∧ (∃ self', move_to (6, 5) scenario_b = (inr None, self')
                 ∧ players_positions self' = [(6, 5); (6, 4)])).
Proof.
  split.
  - apply (proj1 diagonal_move_is_fallback (6, 3) (7, 4) scenario_b
             (move_to (6, 3) scenario_b).2);
      [reflexivity..|vm_compute; reflexivity].
  - apply (proj2 diagonal_move_is_fallback scenario_b);
      [reflexivity..|decide_by_compute|decide_by_compute|decide_by_compute
      |decide_by_compute].
Defined.

End witnesses.

(** ** More properties of the engine, and the board *)

Section more_frames.

Lemma move_to_unchanged (destination : Position) (self : Game) :
  let self' := (move_to destination self).2 in
  wall_parts self' = wall_parts self
  ∧ count_walls self' = count_walls self
  ∧ nb_players self' = nb_players self
  ∧ ∀ j, j ≠ index self →
         players_positions self' !! j = players_positions self !! j.
Proof.
  cbv zeta. rewrite move_to_unfold. cbv zeta.
  repeat case_match; simpl; try done;
    match goal with
    | H : next_turn _ = _ |- _ =>
        apply next_turn_frame in H as (-> & -> & -> & ->); simpl
    end;
    (repeat split; try done; intros j Hj; by rewrite list_lookup_insert_ne).
Qed.

(** X1. [move_to] never touches the walls, the counts of walls or the
    position of the other player, whatever it returns or raises. *)
Theorem move_to_frame (destination : Position) (self : Game) :
  let self' := (move_to destination self).2 in
  wall_parts self' = wall_parts self
  ∧ count_walls self' = count_walls self
  ∧ nb_players self' = nb_players self
  ∧ ∀ j, j ≠ index self →
         players_positions self' !! j = players_positions self !! j.
Proof. exact (move_to_unchanged destination self). Qed.

Lemma new_wall_parts_size position hv : size (new_wall_parts position hv) = 3%nat.
Proof.
  unfold new_wall_parts.
  assert (∀ move other_move : Position,
            move = (1, 0) ∨ move = (0, 1) →
            size (list_to_set ((λ n, (position * 2 + other_move + move * n)%pos)
                                 <$> seqZ 0 3) : gset Position) = 3%nat) as H.
  { intros move other_move Hm. rewrite size_list_to_set; [by rewrite length_fmap|].
    apply NoDup_fmap_2; [|apply NoDup_seqZ].
    intros n m. unfold pos_add, pos_mul, row, col. simpl.
    destruct Hm as [-> | ->]; simpl; intros [= H1]; lia. }
  destruct (bool_decide (hv = "v"%string)); simpl; apply H; auto.
Qed.

(** What an accepted [add_wall] leaves behind. *)
Lemma add_wall_accepted_state position hv self self' :
  add_wall position hv self = (inr None, self') →
  ∃ count,
    count_walls self !! index self = Some count ∧ count ≠ 0
    ∧ new_wall_parts position hv ∩ wall_parts self = ∅
    ∧ wall_parts self' = new_wall_parts position hv ∪ wall_parts self
    ∧ count_walls self' = <[index self := count - 1]> (count_walls self)
    ∧ players_positions self' = players_positions self
    ∧ nb_players self' = nb_players self.
Proof.
  intros H. pose proof H as (count & Hc & Hdis & _ & Hn)%add_wall_accepted.
  exists count. split; [done|]. split.
  { rewrite add_wall_unfold, Hc in H. destruct (in_grid position && _); [|done].
    destruct (count =? 0) eqn:H0; [done|]. lia. }
  split; [done|].
  apply next_turn_frame in Hn as (-> & -> & -> & ->). simpl.
  split; [|done]. apply set_eq. intros x. rewrite !elem_of_union. tauto.
Qed.

Lemma wall_parts_only_grow (a : Action) (self : Game) :
  wall_parts self ⊆ wall_parts (perform a self).2
  ∧ ∀ position hv self',
      add_wall position hv self = (inr None, self') →
      new_wall_parts position hv ## wall_parts self
      ∧ size (wall_parts self') = (size (wall_parts self) + 3)%nat.
Proof.
  split.
  - destruct a as [destination|position hv]; simpl.
    + by destruct (move_to_unchanged destination self) as (-> & _).
    + rewrite add_wall_unfold. repeat case_match; simpl; try done;
        match goal with
        | H : next_turn _ = _ |- _ => apply next_turn_frame in H as (_ & _ & -> & _)
        end;
        simpl; apply union_subseteq_l.
  - intros position hv self' (count & _ & _ & Hdis & -> & _)%add_wall_accepted_state.
    assert (new_wall_parts position hv ## wall_parts self) as Hd.
    { apply disjoint_intersection_L. exact Hdis. }
    split; [exact Hd|]. rewrite size_union by exact Hd.
    rewrite new_wall_parts_size. lia.
Qed.

(** X2. The wall parts only grow: no call of [move_to] or [add_wall]
    removes a wall part, whatever it returns or raises; an accepted
    [add_wall] adds three parts, none of which was there before. *)
Theorem wall_parts_grow (a : Action) (self : Game) :
  wall_parts self ⊆ wall_parts (perform a self).2
  ∧ ∀ position hv self',
      add_wall position hv self = (inr None, self') →
      new_wall_parts position hv ## wall_parts self
      ∧ size (wall_parts self') = (size (wall_parts self) + 3)%nat.
Proof. exact (wall_parts_only_grow a self). Qed.

Lemma reachable_index self : reachable self → (index self < 2)%nat.
Proof.
  induction 1 as [|self a self' Hr IH Ha]; [simpl; lia|].
  apply reachable_invariant in Hr as (Hnb & _).
  assert (∃ committed, index committed = index self
                       ∧ nb_players committed = 2%nat
                       ∧ next_turn committed = (inr tt, self'))
    as (g & Hg & Hnb' & Hn).
  { destruct a as [destination|position hv]; simpl in Ha.
    - apply move_to_accepted in Ha as (c & _ & _ & _ & Hn).
      exists (move_to_commit self destination). by split; [|split; [exact Hnb|]].
    - apply add_wall_accepted in Ha as (count & _ & _ & _ & Hn).
      exists (add_wall_commit self (new_wall_parts position hv) count).
      by split; [|split; [exact Hnb|]]. }
  destruct (next_turn_index g self' Hnb' Hn) as ([] & _ & ->); lia.
Qed.

Lemma wall_accounting_holds (self : Game) :
  reachable self → wall_accounting self.
Proof.
  induction 1 as [|self a self' Hr (c0 & c1 & Hc & H0 & H1 & Hs) Ha].
  { exists 10, 10. unfold WALLS_PER_PLAYER. repeat split; try done. }
  pose proof (reachable_index self Hr) as Hi.
  destruct a as [destination|position hv]; simpl in Ha.
  - destruct (move_to_unchanged destination self) as (Hw & Hcw & _).
    rewrite Ha in Hw, Hcw. simpl in Hw, Hcw.
    unfold wall_accounting. exists c0, c1. by rewrite Hw, Hcw.
  - pose proof (proj2 (wall_parts_only_grow (Wall position hv) self) _ _ _ Ha) as [_ Hsz].
    apply add_wall_accepted_state in Ha as (count & Hcount & Hne & _ & _ & Hcw & _).
    unfold wall_accounting. rewrite Hcw, Hc, Hsz. rewrite Hc in Hcount.
    unfold WALLS_PER_PLAYER in *.
    destruct (index self) as [|[|?]]; [| |lia]; simpl in Hcount |- *;
      injection Hcount as <-.
    + exists (c0 - 1), c1. split; [done|]. lia.
    + exists c0, (c1 - 1). split; [done|]. lia.
Qed.

(** X3. Wall accounting: in every state of a game each player has between
    0 and 10 walls left, and the wall parts are three for every wall that
    the two players have put up. *)
Theorem reachable_wall_accounting (self : Game) :
  reachable self → wall_accounting self.
Proof. exact (wall_accounting_holds self). Qed.

End more_frames.

Section no_crash.

Lemma jump_diffs (c d : Position) : manhattan c d = 2 → (d - c)%pos ∈ JUMP_DIFFS.
Proof.
  unfold manhattan, pos_sub, row, col. destruct c as [c1 c2], d as [d1 d2]. simpl.
  intros H.
  assert ((d1 - c1 = -2 ∧ d2 - c2 = 0) ∨ (d1 - c1 = 2 ∧ d2 - c2 = 0)
          ∨ (d1 - c1 = 0 ∧ d2 - c2 = -2) ∨ (d1 - c1 = 0 ∧ d2 - c2 = 2)
          ∨ (d1 - c1 = -1 ∧ d2 - c2 = -1) ∨ (d1 - c1 = -1 ∧ d2 - c2 = 1)
          ∨ (d1 - c1 = 1 ∧ d2 - c2 = -1) ∨ (d1 - c1 = 1 ∧ d2 - c2 = 1))
    as [[-> ->]|[[-> ->]|[[-> ->]|[[-> ->]|[[-> ->]|[[-> ->]|[[-> ->]|[-> ->]]]]]]]]
    by lia; by vm_compute.
Qed.

Lemma add_wall_for_no_exc self wp n :
  length (players_positions self) = 2%nat → (n ≤ 2)%nat →
  ∃ r, add_wall_for self wp (seq 0 n) = inr r.
Proof.
  intros Hlen Hn.
  assert (∀ l, (∀ i, i ∈ l → (i < 2)%nat) → ∃ r, add_wall_for self wp l = inr r) as H.
  { induction l as [|i l IH]; intros Hl; [by eexists|]. simpl.
    assert (i < 2)%nat as Hi by (apply Hl; left).
    destruct (lookup_lt_is_Some_2 PLAYER_HAS_WIN i) as [win Hwin]; [exact Hi|].
    destruct (lookup_lt_is_Some_2 (players_positions self) i) as [s Hs]; [lia|].
    destruct (can_exit_spec self i wp win Hwin s Hs) as (b & -> & _). simpl.
    destruct b; simpl.
    - apply IH. intros j Hj. apply Hl. by right.
    - destruct (decide _); by eexists. }
  apply H. intros i Hi%elem_of_seq. lia.
Qed.

Lemma no_crash_holds (self : Game) :
  reachable self →
  (∀ destination,
     if in_grid destination
     then ∃ r self', move_to destination self = (inr r, self')
     else move_to destination self = (inl AssertionError, self))
  ∧ (∀ position hv,
       if in_grid position
          && (bool_decide (hv = "h"%string) || bool_decide (hv = "v"%string))
       then ∃ r self', add_wall position hv self = (inr r, self')
       else add_wall position hv self = (inl AssertionError, self)).
Proof.
  intros Hr. pose proof (reachable_index self Hr) as Hi.
  pose proof (wall_accounting_holds self Hr) as (c0 & c1 & Hcw & _).
  apply reachable_invariant in Hr as (Hnb & Hlen & _ & _).
  destruct (lookup_lt_is_Some_2 (players_positions self) (index self)) as [c Hc];
    [lia|].
  split.
  - intros d. rewrite move_to_unfold, Hc. destruct (in_grid d); [|done]. cbv zeta.
    destruct (_ =? 0); [by eexists _, _|]. destruct (2 <? _); [by eexists _, _|].
    destruct (_ && _); [by eexists _, _|].
    assert (∃ o, (if manhattan c d =? 2 then move_to_jump self c d else inr None)
                 = inr o) as [o ->].
    { destruct (_ =? 2) eqn:H2; [|by eexists]. unfold move_to_jump.
      rewrite bool_decide_eq_true_2 by (apply jump_diffs; lia). by eexists. }
    destruct o as [msg|]; [by eexists _, _|].
    destruct (next_turn_ok (move_to_commit self d) d) as [g ->]; [|done..|].
    { simpl. apply list_lookup_insert_eq. lia. }
    by eexists _, _.
  - intros p hv. rewrite add_wall_unfold. destruct (in_grid p && _); [|done].
    destruct (lookup_lt_is_Some_2 (count_walls self) (index self)) as [count Hcount].
    { rewrite Hcw. simpl. lia. }
    rewrite Hcount. destruct (count =? 0); [by eexists _, _|].
    destruct (decide _); [by eexists _, _|].
    destruct (add_wall_for_no_exc self (new_wall_parts p hv ∪ wall_parts self)
                (nb_players self) Hlen) as [r ->]; [lia|].
    destruct r as [msg|]; [by eexists _, _|].
    destruct (next_turn_ok (add_wall_commit self (new_wall_parts p hv) count) c)
      as [g ->]; [done..|].
    by eexists _, _.
Qed.

(** X4. No crash in a game: in every state of a game [move_to] and
    [add_wall] raise nothing but the [AssertionError] of their first line,
    for an argument off the grid or an orientation other than 'h' and 'v',
    and then leave the state as it is; otherwise they return. *)
Theorem reachable_no_crash (self : Game) :
  reachable self →
  (∀ destination,
     if in_grid destination
     then ∃ r self', move_to destination self = (inr r, self')
     else move_to destination self = (inl AssertionError, self))
  ∧ (∀ position hv,
       if in_grid position
          && (bool_decide (hv = "h"%string) || bool_decide (hv = "v"%string))
       then ∃ r self', add_wall position hv self = (inr r, self')
       else add_wall position hv self = (inl AssertionError, self)).
Proof. exact (no_crash_holds self). Qed.

End no_crash.

Section move_rules.

Lemma manhattan_zero (c d : Position) : manhattan c d = 0 ↔ d = c.
Proof.
  unfold manhattan, pos_sub, row, col. destruct c as [c1 c2], d as [d1 d2]. simpl.
  split; [intros H; f_equal; lia|intros [= -> ->]; lia].
Qed.

(** X5. [move_to] answers [ERROR_NOTHING] exactly for the cell the player
    is on, and [ERROR_GHOST] exactly for a cell of the grid next to the
    player with a wall part between the two. *)
Theorem move_to_nothing_ghost (destination current_position : Position)
    (self : Game) :
  in_grid destination = true →
  players_positions self !! index self = Some current_position →
  (move_to destination self = (inr (Some ERROR_NOTHING), self)
   ↔ destination = current_position)
  ∧ (move_to destination self = (inr (Some ERROR_GHOST), self)
     ↔ adjacent current_position destination
       ∧ midpoint (fine current_position) (fine destination) ∈ wall_parts self).
Proof.
  intros Hg Hc. rewrite move_to_unfold, Hg, Hc. cbv zeta.
  rewrite midpoint_fine. unfold adjacent.
  pose proof (manhattan_zero current_position destination) as Hz.
  assert (0 ≤ manhattan current_position destination) as Hpos
    by (unfold manhattan; lia).
  destruct (_ =? 0) eqn:H0.
  { split; [split; [intros _; apply Hz; lia|done]|].
    split; [done|]. intros [H1 _]. lia. }
  destruct (2 <? _) eqn:H2.
  { split; [split; [done|intros H%Hz; lia]|]. split; [done|]. intros [H1 _]. lia. }
  destruct (_ =? 1) eqn:H1; simpl.
  - apply Z.eqb_eq in H1.
    destruct (bool_decide _) eqn:Hb.
    + apply bool_decide_eq_true in Hb.
      split; [split; [done|intros H%Hz; lia]|]. split; [|done]. intros _.
      split; [done|].
      destruct (decide ((current_position + destination)%pos ∈ wall_parts self));
        [done|].
      exfalso. apply Hb. by apply step_spec.
    + apply bool_decide_eq_false in Hb. apply dec_stable in Hb.
      apply step_spec in Hb as (_ & _ & Hw).
      assert ((manhattan current_position destination =? 2) = false) as -> by lia.
      destruct (next_turn _) as [[e|[]] g];
        (split; [split; [done|intros H%Hz; lia]|]; split; [done|by intros [_ ?]]).
  - assert (manhattan current_position destination = 2) as Hd by lia.
    split; [split; [|intros H%Hz; lia]|split; [|intros [? _]; lia]].
    + rewrite Hd. simpl. unfold move_to_jump.
      rewrite bool_decide_eq_true_2 by (apply jump_diffs; lia).
      destruct (bool_decide (0 ∈ _)).
      * unfold move_to_over. repeat (destruct (decide (_ ∉ _)); [done|]).
        by destruct (next_turn _) as [[e|[]] g].
      * unfold move_to_beside. repeat (destruct (decide (_ = [])); [done|]).
        by destruct (next_turn _) as [[e|[]] g].
    + rewrite Hd. simpl. unfold move_to_jump.
      rewrite bool_decide_eq_true_2 by (apply jump_diffs; lia).
      destruct (bool_decide (0 ∈ _)).
      * unfold move_to_over. repeat (destruct (decide (_ ∉ _)); [done|]).
        by destruct (next_turn _) as [[e|[]] g].
      * unfold move_to_beside. repeat (destruct (decide (_ = [])); [done|]).
        by destruct (next_turn _) as [[e|[]] g].
Qed.

(** The cell between two cells two apart on a line. *)
Lemma straight_between (c d : Position) :
  manhattan c d = 2 →
  row (d - c)%pos = 0 ∨ col (d - c)%pos = 0 →
  let e := (c + (d - c) // 2)%pos in
  adjacent c e ∧ adjacent e d
  ∧ (in_grid c = true → in_grid d = true → in_grid e = true).
Proof.
  unfold manhattan, adjacent, manhattan, pos_add, pos_sub, pos_floordiv, row, col.
  destruct c as [c1 c2], d as [d1 d2]. simpl. intros H Hz.
  rewrite !in_grid_spec. simpl.
  assert ((d1 - c1 = -2 ∧ d2 - c2 = 0) ∨ (d1 - c1 = 2 ∧ d2 - c2 = 0)
          ∨ (d1 - c1 = 0 ∧ d2 - c2 = -2) ∨ (d1 - c1 = 0 ∧ d2 - c2 = 2))
    as [[H1 H2]|[[H1 H2]|[[H1 H2]|[H1 H2]]]] by lia;
    rewrite H1, H2;
    repeat match goal with
      | |- context [?a `div` 2] =>
          let v := eval vm_compute in (a `div` 2) in change (a `div` 2) with v
      end;
    lia.
Qed.

(** X6. The straight jump: a move of two cells along a row or a column is
    accepted exactly when a player stands on the cell between, with no wall
    part between the mover and that player and none between that player and
    the destination; the mover then stands on the destination. *)
Theorem straight_jump_rule (destination current_position : Position)
    (self : Game) :
  in_grid destination = true → in_grid current_position = true →
  players_positions self !! index self = Some current_position →
  nb_players self = 2%nat → (index self < 2)%nat →
  manhattan current_position destination = 2 →
  row (destination - current_position)%pos = 0
  ∨ col (destination - current_position)%pos = 0 →
  let enemy := (current_position + (destination - current_position) // 2)%pos in
  (∃ self', move_to destination self = (inr None, self'))
  ↔ enemy ∈ players_positions self
    ∧ (midpoint (fine current_position) (fine enemy) ∉ wall_parts self)
    ∧ (midpoint (fine enemy) (fine destination) ∉ wall_parts self).
Proof.
  intros Hg Hgc Hc Hnb Hi Hd Hz enemy.
  destruct (straight_between current_position destination Hd Hz) as (Ha1 & Ha2 & He).
  fold enemy in Ha1, Ha2, He. specialize (He Hgc Hg).
  rewrite !midpoint_fine.
  rewrite move_to_unfold, Hg, Hc. cbv zeta. rewrite Hd. simpl.
  unfold move_to_jump. rewrite bool_decide_eq_true_2 by (by apply jump_diffs).
  rewrite bool_decide_eq_true_2.
  2:{ rewrite !elem_of_cons. destruct Hz as [-> | ->]; auto. }
  unfold move_to_over. fold enemy.
  destruct (decide (enemy ∉ players_positions self)) as [Hp|Hp%dec_stable].
  { split; [by intros [? ?]|]. by intros [? _]. }
  destruct (decide (enemy ∉ naive_neighbors _ _)) as [Hn|Hn%dec_stable].
  { split; [by intros [? ?]|]. intros (_ & Hw & _). exfalso. apply Hn.
    by apply step_spec. }
  apply step_spec in Hn as (_ & _ & Hw1).
  destruct (decide (destination ∉ naive_neighbors _ _)) as [Hn|Hn%dec_stable].
  { split; [by intros [? ?]|]. intros (_ & _ & Hw). exfalso. apply Hn.
    by apply step_spec. }
  apply step_spec in Hn as (_ & _ & Hw2).
  split; [done|]. intros _.
  destruct (next_turn_ok (move_to_commit self destination) destination) as [g ->];
    [|done..|by eexists].
  simpl. apply list_lookup_insert_eq. by apply lookup_lt_Some in Hc.
Qed.

(** X7. The jump beside: a diagonal move is accepted exactly when some
    player next to the mover and next to the destination passes the checks
    of [move_to]: a step from the mover to that player, no step from that
    player to the cell behind it (or that cell off the grid), and a step from
    that player to the destination. *)
Theorem diagonal_jump_rule (destination current_position : Position)
    (self : Game) :
  in_grid destination = true →
  players_positions self !! index self = Some current_position →
  nb_players self = 2%nat → (index self < 2)%nat →
  Z.abs (row (destination - current_position)%pos) = 1 →
  Z.abs (col (destination - current_position)%pos) = 1 →
  (∃ self', move_to destination self = (inr None, self'))
  ↔ ∃ enemy,
      enemy ∈ players_positions self
      ∧ adjacent current_position enemy ∧ adjacent enemy destination
      ∧ step (wall_parts self) current_position enemy
      ∧ (in_grid (behind current_position enemy) = false
         ∨ ¬ step (wall_parts self) enemy (behind current_position enemy))
      ∧ step (wall_parts self) enemy destination.
Proof.
  intros Hg Hc Hnb Hi Hrow Hcol.
  assert (manhattan current_position destination = 2) as Hd.
  { revert Hrow Hcol. unfold manhattan, pos_sub, row, col. simpl. lia. }
  rewrite move_to_unfold, Hg, Hc. cbv zeta. rewrite Hd. simpl.
  unfold move_to_jump. rewrite bool_decide_eq_true_2 by (by apply jump_diffs).
  rewrite bool_decide_eq_false_2.
  2:{ rewrite !elem_of_cons, elem_of_nil. lia. }
  rewrite <-(move_to_beside_None self current_position destination).
  destruct (move_to_beside self current_position destination) as [msg|].
  { split; [by intros [? ?]|done]. }
  split; [done|]. intros _.
  destruct (next_turn_ok (move_to_commit self destination) destination) as [g ->];
    [|done..|by eexists].
  simpl. apply list_lookup_insert_eq. by apply lookup_lt_Some in Hc.
Qed.

End move_rules.

Section walls.

Lemma tc_step_fewer_walls (wp wp' : gset Position) a b :
  wp ⊆ wp' → tc (step wp') a b → tc (step wp) a b.
Proof.
  intros Hsub. induction 1 as [a b H|a x b H _ IH].
  - apply tc_once. apply step_spec in H as (? & ? & Hw). apply step_spec.
    repeat split; try done. intros Hin. apply Hw, Hsub, Hin.
  - eapply tc_l; [|exact IH]. apply step_spec in H as (? & ? & Hw). apply step_spec.
    repeat split; try done. intros Hin. apply Hw, Hsub, Hin.
Qed.

(** X8. Fewer walls never cut a player off: when [can_exit] answers [True]
    on a set of wall parts, it answers [True] on every subset of it. *)
Theorem can_exit_fewer_walls (self : Game) (i : nat) (wp wp' : gset Position) :
  (i < 2)%nat →
  wp ⊆ wp' →
  can_exit self i wp' = inr true →
  can_exit self i wp = inr true.
Proof.
  intros Hi Hsub H.
  destruct (lookup_lt_is_Some_2 PLAYER_HAS_WIN i) as [win Hwin]; [exact Hi|].
  destruct (players_positions self !! i) as [s|] eqn:Hs.
  2:{ unfold can_exit, getitem in H. rewrite Hs in H. unfold ebind in H.
      discriminate H. }
  destruct (proj1 (can_exit_true_iff self i wp' s win Hs Hwin) H) as (t & Ht & Hw).
  apply (can_exit_true_iff self i wp s win Hs Hwin). exists t.
  split; [|exact Hw]. by apply (tc_step_fewer_walls wp wp').
Qed.

Lemma elem_of_new_wall_parts (position x : Position) (hv : string) :
  x ∈ new_wall_parts position hv ↔
  ∃ n, 0 ≤ n < 3
       ∧ x = if bool_decide (hv = "v"%string)
             then (2 * position.1 + n, 2 * position.2 + 1)
             else (2 * position.1 + 1, 2 * position.2 + n).
Proof.
  assert (∀ move other_move : Position,
            x ∈ (list_to_set ((λ n, (position * 2 + other_move + move * n)%pos)
                                <$> seqZ 0 3) : gset Position)
            ↔ ∃ n, 0 ≤ n < 3 ∧ x = (position * 2 + other_move + move * n)%pos) as H.
  { intros move other_move. rewrite elem_of_list_to_set, list_elem_of_fmap.
    split; intros (n & Hx & Hn); exists n.
    - apply elem_of_seqZ in Hn. split; [lia|exact Hx].
    - split; [exact Hn|]. apply elem_of_seqZ. lia. }
  unfold new_wall_parts.
  destruct (bool_decide (hv = "v"%string)).
  - etrans; [apply (H (1, 0) (0, 1))|].
    split; intros (n & Hn & ->); exists n; (split; [exact Hn|]);
      unfold pos_add, pos_mul, row, col; simpl; f_equal; lia.
  - etrans; [apply (H (0, 1) (1, 0))|].
    split; intros (n & Hn & ->); exists n; (split; [exact Hn|]);
      unfold pos_add, pos_mul, row, col; simpl; f_equal; lia.
Qed.

(** X9. What a wall cuts: the slot between two adjacent cells is a part of
    the horizontal wall at [p] exactly for the pairs [p], [p + (1,0)] and
    [p + (0,1)], [p + (1,1)]; it is a part of the vertical wall at [p]
    exactly for the pairs [p], [p + (0,1)] and [p + (1,0)], [p + (1,1)]. *)
Theorem wall_cuts (p a b : Position) (hv : string) :
  adjacent a b →
  let d : Position := if bool_decide (hv = "v"%string) then (0, 1) else (1, 0) in
  let along : Position := if bool_decide (hv = "v"%string) then (1, 0) else (0, 1) in
  midpoint (fine a) (fine b) ∈ new_wall_parts p hv
  ↔ (a = p ∧ b = (p + d)%pos) ∨ (b = p ∧ a = (p + d)%pos)
    ∨ (a = (p + along)%pos ∧ b = (p + along + d)%pos)
    ∨ (b = (p + along)%pos ∧ a = (p + along + d)%pos).
Proof.
  intros Hadj d along. rewrite midpoint_fine, elem_of_new_wall_parts.
  unfold d, along. revert Hadj.
  unfold adjacent, manhattan, pos_add, pos_sub, row, col.
  destruct a as [a1 a2], b as [b1 b2], p as [r c]. simpl. intros Hadj.
  destruct (bool_decide (hv = "v"%string)); simpl; rewrite !pair_equal_spec.
  - split; [intros (n & Hn & H); apply pair_equal_spec in H; lia|].
    intros H. exists (a1 + b1 - 2 * r). rewrite pair_equal_spec. lia.
  - split; [intros (n & Hn & H); apply pair_equal_spec in H; lia|].
    intros H. exists (a2 + b2 - 2 * c). rewrite pair_equal_spec. lia.
Qed.

Lemma perform_unaccepted_state (a : Action) (self : Game) :
  reachable self →
  (perform a self).1 ≠ inr None → (perform a self).2 = self.
Proof.
  intros Hr Hna. destruct (perform a self) as [[e|[msg|]] self'] eqn:Ha; simpl in *.
  - destruct (no_crash_holds self Hr) as [Hm Hw].
    destruct a as [destination|position hv]; simpl in Ha.
    + specialize (Hm destination). destruct (in_grid destination).
      * destruct Hm as (r & g & Hm). congruence.
      * congruence.
    + specialize (Hw position hv). destruct (in_grid position && _).
      * destruct Hw as (r & g & Hw). congruence.
      * congruence.
  - by apply (message_before_update a self self' msg).
  - done.
Qed.

Lemma reachable_play_any actions self : reachable self → reachable (play actions self).
Proof.
  revert self. induction actions as [|a actions IH]; intros self Hr; [done|].
  change (play (a :: actions) self) with (play actions (perform a self).2).
  apply IH. destruct (perform a self) as [[e|[msg|]] self'] eqn:Ha.
  - rewrite <-Ha, perform_unaccepted_state; [done..|by rewrite Ha].
  - rewrite <-Ha, perform_unaccepted_state; [done..|by rewrite Ha].
  - by eapply reachable_perform.
Qed.

Lemma wall_parts_play actions self :
  wall_parts self ⊆ wall_parts (play actions self).
Proof.
  revert self. induction actions as [|a actions IH]; intros self; [done|].
  change (play (a :: actions) self) with (play actions (perform a self).2).
  etrans; [|apply IH]. apply wall_parts_only_grow.
Qed.

(** X10. A wall stays: once [add_wall] has accepted a wall at a cell, no
    wall is accepted at that cell again in the rest of the game, in either
    orientation: the answer is [ERROR_NO_WALL] or [ERROR_WALL_INTERSECTION]. *)
Theorem no_second_wall (position : Position) (hv hv' : string)
    (self self' : Game) (actions : list Action) :
  reachable self →
  add_wall position hv self = (inr None, self') →
  hv' = "h"%string ∨ hv' = "v"%string →
  let later := play actions self' in
  add_wall position hv' later = (inr (Some ERROR_NO_WALL), later)
  ∨ add_wall position hv' later = (inr (Some ERROR_WALL_INTERSECTION), later).
Proof.
  intros Hr Ha Hhv later.
  assert (reachable later) as Hl.
  { apply reachable_play_any. by eapply (reachable_perform self (Wall position hv)). }
  pose proof (reachable_index later Hl) as Hi.
  pose proof (wall_accounting_holds later Hl) as (c0 & c1 & Hcw & _).
  assert (in_grid position = true) as Hg.
  { rewrite add_wall_unfold in Ha. destruct (in_grid position); [done|].
    simpl in Ha. done. }
  assert ((2 * position.1 + 1, 2 * position.2 + 1) ∈ wall_parts later) as Hmid.
  { apply (wall_parts_play actions self').
    apply add_wall_accepted_state in Ha as (_ & _ & _ & _ & -> & _).
    apply elem_of_union_l, elem_of_new_wall_parts. exists 1. split; [lia|].
    by destruct (bool_decide _). }
  rewrite add_wall_unfold, Hg.
  assert (bool_decide (hv' = "h"%string) || bool_decide (hv' = "v"%string) = true)
    as -> by (by destruct Hhv as [-> | ->]).
  simpl.
  destruct (lookup_lt_is_Some_2 (count_walls later) (index later)) as [count ->].
  { rewrite Hcw. simpl. lia. }
  destruct (count =? 0); [by left|]. right.
  rewrite decide_True; [done|].
  intros He.
  assert ((2 * position.1 + 1, 2 * position.2 + 1)
          ∈ new_wall_parts position hv' ∩ wall_parts later) as Hin.
  { apply elem_of_intersection. split; [|exact Hmid].
    apply elem_of_new_wall_parts. exists 1. split; [lia|]. by destruct (bool_decide _). }
  rewrite He in Hin. by apply not_elem_of_empty in Hin.
Qed.

(** X11. In every state of a game there are two players, each on a cell of
    the grid, and the turn is the one of player 0 or of player 1. *)
Theorem reachable_on_grid (self : Game) :
  reachable self →
  nb_players self = 2%nat
  ∧ (index self < 2)%nat
  ∧ ∃ p0 p1, players_positions self = [p0; p1]
             ∧ in_grid p0 = true ∧ in_grid p1 = true.
Proof.
  intros Hr. pose proof (reachable_index self Hr) as Hi.
  apply reachable_invariant in Hr as (Hnb & Hlen & Hgrid & _).
  split; [exact Hnb|]. split; [exact Hi|].
  destruct (players_positions self) as [|p0 [|p1 [|? ?]]]; try done.
  exists p0, p1. split; [done|]. split; apply Hgrid; [left|right; left].
Qed.

End walls.

Import Widgets.

Section layout.

Lemma elem_of_all_places (p : Position) : p ∈ all_places ↔ in_layout p = true.
Proof.
  unfold all_places, in_layout, row, col. rewrite list_elem_of_bind. split.
  - intros (r & Hp & Hr). apply list_elem_of_fmap in Hp as (c & -> & Hc).
    apply elem_of_seqZ in Hr, Hc. simpl. lia.
  - intros H. exists p.1. split.
    + apply list_elem_of_fmap. exists p.2. split; [by destruct p|].
      apply elem_of_seqZ. lia.
    + apply elem_of_seqZ. lia.
Qed.

Lemma Board_init_2 (self : Board) :
  Board_init 2 = inr self →
  self = {| isFinished := false; posToWidget := Board_init_posToWidget;
            players := [(16, 8); (0, 8)]; playerIndex := 0; game := init;
            turnLabel := {| nbPlayers := 2; turn_index := 1;
                            turn_text := (TURN_MSG, 1%nat) |};
            playerLabels := [10; 10];
            messageLabel := Some "Error messages will be displayed here."%string |}.
Proof.
  intros H.
  assert (Board_init 2
          = inr {| isFinished := false; posToWidget := Board_init_posToWidget;
                   players := [(16, 8); (0, 8)]; playerIndex := 0; game := init;
                   turnLabel := {| nbPlayers := 2; turn_index := 1;
                                   turn_text := (TURN_MSG, 1%nat) |};
                   playerLabels := [10; 10];
                   messageLabel :=
                     Some "Error messages will be displayed here."%string |}) as H'
    by reflexivity.
  rewrite H' in H. by injection H as <-.
Qed.

Lemma Board_init_posToWidget_places :
  Forall (λ p, Board_init_posToWidget !! p = Some (class_at p, None)) all_places
  ∧ map_Forall (λ p _, in_layout p = true) Board_init_posToWidget.
Proof. split; apply (bool_decide_unpack _); vm_compute; exact I. Qed.

Lemma posToWidget_places (self : Board) :
  Board_init 2 = inr self →
  Forall (λ p, posToWidget self !! p = Some (class_at p, None)) all_places
  ∧ map_Forall (λ p _, in_layout p = true) (posToWidget self).
Proof. intros ->%Board_init_2. apply Board_init_posToWidget_places. Qed.

(** X12. The widgets of the board: [_generateBoardWidgets] yields one
    widget for each of the 17 x 17 places of the layout and never two for
    the same place, so [posToWidget] keeps them all; the widget is a cell
    where row and column are even, a wall between two cells of the grid, and
    a void at the crossings and along the last row and the last column. *)
Theorem board_layout (self : Board) :
  Board_init 2 = inr self →
  NoDup (generateBoardWidgets.*2)
  ∧ ∀ p, posToWidget self !! p
         = if in_layout p then Some (class_at p, None) else None.
Proof.
  intros Hb. split; [apply (bool_decide_unpack _); vm_compute; exact I|].
  destruct (posToWidget_places self Hb) as [Hall Hkeys].
  intros p. destruct (in_layout p) eqn:Hp.
  - rewrite Forall_forall in Hall. apply Hall. by apply elem_of_all_places.
  - destruct (posToWidget self !! p) as [w|] eqn:Hw; [|done].
    apply Hkeys in Hw. congruence.
Qed.

End layout.

Section clicks.

Lemma generated_clicks_fit :
  Forall (λ wi : BoardWidget * Position,
            in_layout wi.2 = true ∧ class_at wi.2 = wi.1
            ∧ (wi.1 = Wall → wall_click_fits wi.2)
            ∧ (wi.1 = Cell → cell_click_fits wi.2))
    generateBoardWidgets.
Proof. apply (bool_decide_unpack _). vm_compute. exact I. Qed.

(** X13. The clicks fit the game: a click on a cell widget asks [move_to]
    for the cell of the grid under it; a click on a wall widget asks
    [add_wall] for a cell of the grid and the orientation 'h' or 'v', and the
    three places [Board.addWall] fills are the three parts [add_wall]
    computes, each one the place of a wall or of a void of the board. *)
Theorem clicks_fit_the_game (w : BoardWidget) (item_position : Position) :
  (w, item_position) ∈ generateBoardWidgets →
  (w = Cell → cell_click_fits item_position)
  ∧ (w = Wall → wall_click_fits item_position).
Proof.
  intros Hin. pose proof generated_clicks_fit as H.
  rewrite Forall_forall in H. destruct (H _ Hin) as (_ & _ & Hw & Hc). by split.
Qed.

End clicks.

Section board.

Local Arguments Nat.modulo : simpl never.
Local Arguments Board_init_posToWidget : simpl never.
Local Arguments addWall_positions : simpl never.
Local Arguments new_wall_parts : simpl never.

(** The loop of [Board.addWall] on places that hold walls or voids: it
    fills them and nothing else. *)
Lemma addWall_for_fills i positions widgets :
  (∀ p, fst <$> (widgets !! p) = if in_layout p then Some (class_at p) else None) →
  Forall (λ pos, in_layout pos = true ∧ class_at pos ≠ Cell) positions →
  ∃ widgets',
    addWall_for i positions widgets = (inr tt, widgets')
    ∧ (∀ p, fst <$> (widgets' !! p) = if in_layout p then Some (class_at p) else None)
    ∧ ∀ p, (∃ w j, widgets' !! p = Some (w, Some j))
           ↔ p ∈ positions ∨ ∃ w j, widgets !! p = Some (w, Some j).
Proof.
  revert widgets. induction positions as [|pos positions IH]; intros widgets Hk Hall.
  { exists widgets. split; [done|]. split; [done|]. intros p.
    rewrite elem_of_nil. tauto. }
  apply Forall_cons in Hall as [[Hin Hcl] Hall]. simpl.
  pose proof (Hk pos) as Hpos. rewrite Hin in Hpos.
  destruct (widgets !! pos) as [[w c]|] eqn:Hw; [|done]. simpl in Hpos.
  injection Hpos as ->.
  destruct (IH (<[pos := (class_at pos, Some i)]> widgets)) as (m & Hm & Hk' & Hf);
    [|exact Hall|].
  { intros p. destruct (decide (p = pos)) as [->|Hne].
    - by rewrite lookup_insert_eq, Hin.
    - by rewrite lookup_insert_ne. }
  exists m. split.
  { destruct (class_at pos); [done|exact Hm..]. }
  split; [exact Hk'|]. intros p. rewrite Hf, elem_of_cons.
  destruct (decide (p = pos)) as [->|Hne].
  - rewrite lookup_insert_eq. split; [auto|]. intros _. right. by eexists _, _.
  - rewrite lookup_insert_ne by done. split; [tauto|].
    intros [[?|?]|?]; [done|auto..].
Qed.

(** The turn label follows the turn. *)
Lemma TurnLabel_nextTurn_sync (label : TurnLabel) (i : nat) :
  nbPlayers label = 2%nat → (i < 2)%nat → turn_index label = S i →
  ∃ label', TurnLabel_nextTurn label = inr label'
            ∧ nbPlayers label' = 2%nat
            ∧ turn_index label' = S ((i + 1) `mod` 2)%nat.
Proof.
  intros Hn Hi Ht. unfold TurnLabel_nextTurn. rewrite Hn, Ht. simpl.
  eexists. split; [done|]. split; [done|]. simpl.
  by destruct i as [|[|?]]; [..|lia].
Qed.

Lemma has_win_current self p win :
  players_positions self !! index self = Some p →
  PLAYER_HAS_WIN !! index self = Some win →
  has_win self None None = inr (win p).
Proof. intros Hp Hw. unfold has_win, getitem. by rewrite Hp, Hw. Qed.

(** [Board.nextTurn] after an action of the game that ended in
    [next_turn]: the board follows the game. *)
Lemma nextTurn_follows (b : Board) (committed : Game) :
  next_turn committed = (inr tt, game b) →
  nb_players committed = 2%nat →
  length (players_positions committed) = 2%nat →
  (index committed < 2)%nat →
  playerIndex b = index committed →
  length (players b) = 2%nat →
  nbPlayers (turnLabel b) = 2%nat →
  turn_index (turnLabel b) = S (playerIndex b) →
  isFinished b = false →
  (∀ j p win, j ≠ index committed →
              players_positions committed !! j = Some p →
              PLAYER_HAS_WIN !! j = Some win → win p = false) →
  ∃ b', nextTurn b = (inr tt, b')
        ∧ game b' = game b ∧ posToWidget b' = posToWidget b
        ∧ players b' = players b ∧ playerLabels b' = playerLabels b
        ∧ messageLabel b' = messageLabel b
        ∧ playerIndex b' = index (game b)
        ∧ nbPlayers (turnLabel b') = 2%nat
        ∧ turn_index (turnLabel b') = S (playerIndex b')
        ∧ (isFinished b' = true ↔ has_win (game b) None None = inr true)
        ∧ (isFinished b' = false → nobody_home (game b)).
Proof.
  intros Hn Hnb Hlen Hi Hpi Hpl Hnl Hti Hfin Hothers.
  destruct (lookup_lt_is_Some_2 (players_positions committed) (index committed))
    as [p Hp]; [lia|].
  destruct (lookup_lt_is_Some_2 PLAYER_HAS_WIN (index committed)) as [win Hwin];
    [exact Hi|].
  rewrite next_turn_unfold, (has_win_current committed p win Hp Hwin) in Hn.
  unfold nextTurn.
  destruct (win p) eqn:Hwp.
  - injection Hn as Hg. rewrite <-Hg, (has_win_current committed p win Hp Hwin), Hwp.
    eexists. split; [done|]. simpl. do 5 (split; [done|]).
    split; [exact Hpi|]. split; [exact Hnl|]. split; [exact Hti|].
    split; [done|]. intros Hf. discriminate Hf.
  - rewrite Hnb in Hn. simpl in Hn. injection Hn as Hg.
    set (i' := ((index committed + 1) `mod` 2)%nat) in *.
    assert (i' < 2)%nat as Hi' by (apply Nat.mod_upper_bound; lia).
    assert (i' ≠ index committed) as Hne.
    { unfold i'. destruct (index committed) as [|[|?]]; [by vm_compute..|lia]. }
    destruct (lookup_lt_is_Some_2 (players_positions committed) i') as [p' Hp'];
      [lia|].
    destruct (lookup_lt_is_Some_2 PLAYER_HAS_WIN i') as [win' Hwin']; [exact Hi'|].
    assert (has_win (game b) None None = inr false) as Hhw.
    { rewrite <-Hg. rewrite (has_win_current _ p' win'); [|done..].
      by rewrite (Hothers i' p' win' Hne Hp' Hwin'). }
    rewrite Hhw. rewrite Hpl. simpl.
    destruct (TurnLabel_nextTurn_sync (turnLabel b) (index committed))
      as (label & Hl & Hl1 & Hl2); [done|done|congruence|].
    rewrite Hl. eexists. split; [done|]. simpl. do 5 (split; [done|]).
    split; [by rewrite <-Hg, Hpi|]. split; [exact Hl1|].
    split; [by rewrite Hl2, Hpi|]. split; [by rewrite Hfin|].
    intros _ j q winj Hq Hwj. rewrite <-Hg in Hq. simpl in Hq.
    destruct (decide (j = index committed)) as [->|Hj].
    + congruence.
    + by eapply Hothers.
Qed.

Lemma Board_init_lookup (p : Position) :
  Board_init_posToWidget !! p = if in_layout p then Some (class_at p, None) else None.
Proof.
  destruct Board_init_posToWidget_places as [Hall Hkeys].
  destruct (in_layout p) eqn:Hp.
  - rewrite Forall_forall in Hall. apply Hall. by apply elem_of_all_places.
  - destruct (Board_init_posToWidget !! p) as [w|] eqn:Hw; [|done].
    apply Hkeys in Hw. congruence.
Qed.

Lemma board_invariant_init (b : Board) : Board_init 2 = inr b → board_invariant b.
Proof.
  intros ->%Board_init_2. split; [apply reachable_init|]. split.
  { split; [done|]. split; [done|]. split; [done|]. split; [done|]. split.
    - intros p. cbn [posToWidget game]. rewrite Board_init_lookup.
      split; [by intros ?%not_elem_of_empty|].
      intros (w & i & H). by destruct (in_layout p).
    - cbn [isFinished game]. split; [done|]. by vm_compute. }
  split.
  { intros p. cbn [posToWidget]. rewrite Board_init_lookup. by destruct (in_layout p). }
  split; [done|]. intros _ i p win Hp Hw.
  destruct i as [|[|i]]; simpl in Hp, Hw; [| |done];
    injection Hp as <-; by injection Hw as <-.
Qed.

(** A click on a cell or a wall of a board of the window returns, and the
    board it leaves is again as a board of the window should be. *)
Lemma board_invariant_click (b : Board) (w : BoardWidget) (item : Position) :
  board_invariant b → clickable w item →
  ∃ b', receiveClick w item b = (inr tt, b') ∧ board_invariant b'.
Proof.
  intros (Hr & Hsync & Hkinds & Hnl & Hhome) [Hgen Hvoid].
  destruct Hsync as (Hpi & Hlabels & Hti & Hplayers & Hfilled & Hfin).
  pose proof generated_clicks_fit as Hfits. rewrite Forall_forall in Hfits.
  destruct (Hfits _ Hgen) as (Hlay & Hclass & Hwall & Hcell). simpl in *.
  pose proof (reachable_index _ Hr) as Hi.
  pose proof (wall_accounting_holds _ Hr) as (c0 & c1 & Hcw & _).
  pose proof (reachable_invariant _ Hr) as (Hnb & Hlen & _ & _).
  assert (length (players b) = 2%nat) as Hpl by (by rewrite Hplayers, length_fmap).
  unfold receiveClick.
  destruct (isFinished b) eqn:Hf.
  { exists (set_message b (Some "It is over!"%string)).
    split; [by destruct w|]. split; [done|]. split; [|split; [done|split; [done|]]].
    - repeat (split; [done|]). simpl. by rewrite Hf.
    - simpl. by rewrite Hf. }
  specialize (Hhome eq_refl).
  destruct w; [| |done]; cbv zeta.
  - (* a cell *)
    destruct (Hcell eq_refl) as [Hg Hfine].
    destruct (no_crash_holds _ Hr) as [Hmove _].
    specialize (Hmove (item // 2)%pos). rewrite Hg in Hmove.
    destruct Hmove as (r & g' & Hm). rewrite Hm.
    destruct r as [msg|].
    { pose proof (message_before_update (Move (item // 2)%pos) _ _ _ Hm) as ->.
      eexists. split; [done|]. split; [done|]. split; [|split; [done|split; [done|]]].
      - repeat (split; [done|]). simpl. by rewrite Hf.
      - simpl. by rewrite Hf. }
    pose proof Hm as (c & _ & Hc & _ & Hn)%move_to_accepted.
    pose proof (next_turn_frame _ _ _ Hn) as (Hnb' & Hpp' & Hwp' & Hcw').
    simpl in Hnb', Hpp', Hwp', Hcw'.
    unfold movePlayer. simpl.
    destruct (lookup_lt_is_Some_2 (players b) (playerIndex b)) as [q ->];
      [rewrite Hpl, Hpi; exact Hi|].
    pose proof (Hkinds item) as Hk. rewrite Hlay in Hk.
    destruct (posToWidget b !! item) as [wc|] eqn:Hitem; [|done].
    match goal with
    | |- ∃ b', nextTurn ?b1 = _ ∧ _ =>
        destruct (nextTurn_follows b1 (move_to_commit (game b) (item // 2)%pos))
          as (b' & Hnt & Hg' & Hw' & Hp' & Hl' & Hm' & Hpi' & Hnl' & Hti' & Hfin' & Hhome')
    end; simpl; try done.
    { by rewrite length_insert. }
    { by rewrite length_insert. }
    { intros j p win Hj Hp Hw. rewrite list_lookup_insert_ne in Hp by done.
      by eapply Hhome. }
    simpl in *. exists b'. split; [exact Hnt|].
    unfold board_invariant, board_in_sync. rewrite !Hg', !Hw', !Hp', !Hl'.
    split; [by apply (reachable_perform (game b) (Move (item // 2)%pos))|].
    split; [|done].
    split; [done|]. split; [by rewrite Hcw'|]. split; [done|].
    split.
    { rewrite Hpp', Hplayers, list_fmap_insert, Hfine, Hpi. done. }
    split; [|done]. intros p. by rewrite Hwp'.
  - (* a wall *)
    destruct (Hwall eq_refl) as (Hg & Hhv & Hset & Hplaces).
    assert (∀ p, p ∈ new_wall_parts (item // 2)%pos (hv_of (col item `mod` 2))
                 ↔ p ∈ addWall_positions item (col item `mod` 2)) as Hmem.
    { intros p. rewrite <-Hset. apply elem_of_list_to_set. }
    clear Hset.
    destruct (no_crash_holds _ Hr) as [_ Hadd].
    specialize (Hadd (item // 2)%pos (hv_of (col item `mod` 2))). rewrite Hg in Hadd.
    assert (bool_decide (hv_of (col item `mod` 2) = "h"%string)
            || bool_decide (hv_of (col item `mod` 2) = "v"%string) = true) as Hb.
    { destruct Hhv as [-> | ->]; done. }
    rewrite Hb in Hadd. simpl in Hadd.
    destruct Hadd as (r & g' & Hm). rewrite Hm.
    destruct r as [msg|].
    { pose proof (message_before_update (place_wall (item // 2)%pos _) _ _ _ Hm) as ->.
      eexists. split; [done|]. split; [done|]. split; [|split; [done|split; [done|]]].
      - repeat (split; [done|]). simpl. by rewrite Hf.
      - simpl. by rewrite Hf. }
    pose proof Hm as (count & Hcount & _ & _ & Hn)%add_wall_accepted.
    pose proof Hm as (count' & Hcount' & _ & _ & Hwp' & Hcw' & Hpp' & _)%add_wall_accepted_state.
    assert (count' = count) as -> by congruence.
    unfold addWall, set_message, set_game.
    cbn [posToWidget playerIndex playerLabels game isFinished players turnLabel
         messageLabel].
    destruct (addWall_for_fills (playerIndex b)
                (addWall_positions item (col item `mod` 2)) (posToWidget b)
                Hkinds Hplaces) as (widgets & -> & Hkinds' & Hfilled').
    cbn [posToWidget playerIndex playerLabels game isFinished players turnLabel
         messageLabel].
    rewrite Hlabels, Hpi, Hcount.
    match goal with
    | |- ∃ b', nextTurn ?b1 = _ ∧ _ =>
        destruct (nextTurn_follows b1
                    (add_wall_commit (game b) (new_wall_parts (item // 2)%pos
                                                 (hv_of (col item `mod` 2))) count))
          as (b' & Hnt & Hg' & Hw' & Hp' & Hl' & Hm' & Hpi' & Hnl' & Hti' & Hfin' & Hhome')
    end; simpl; try done.
    { by rewrite <-Hpi. }
    { intros j p win Hj Hp Hw. by eapply Hhome. }
    simpl in *. exists b'. split; [exact Hnt|].
    unfold board_invariant, board_in_sync. rewrite !Hg', !Hw', !Hp', !Hl'.
    split; [by apply (reachable_perform (game b)
                        (place_wall (item // 2)%pos (hv_of (col item `mod` 2))))|].
    split; [|done].
    split; [done|]. split; [by rewrite Hcw'|]. split; [done|].
    split; [by rewrite Hpp'|].
    split; [|done]. intros p. by rewrite Hwp', Hfilled', elem_of_union, Hmem, Hfilled.
Qed.

Lemma board_reachable_invariant (b : Board) : board_reachable b → board_invariant b.
Proof.
  induction 1 as [b Hb|b w item _ IH Hc]; [by apply board_invariant_init|].
  destruct (board_invariant_click b w item IH Hc) as (b' & -> & Hb'). exact Hb'.
Qed.

Lemma board_reachable_click_all clicks (b : Board) :
  board_reachable b → Forall (λ c, clickable c.1 c.2) clicks →
  board_reachable (click_all clicks b).
Proof.
  revert b. induction clicks as [|[w item] clicks IH]; intros b Hb Hall; [done|].
  apply Forall_cons in Hall as [Hc Hall].
  change (click_all ((w, item) :: clicks) b)
    with (click_all clicks (receiveClick w item b).2).
  apply IH; [|exact Hall]. by apply board_reachable_click.
Qed.

Lemma board_reachable_first : board_reachable first_board.
Proof. by apply board_reachable_init. Qed.

(** X14. The board follows the game: on every board of the window the
    game is in a state accepted actions lead to, the turn of the board and
    of the turn label is the turn of the game, the labels of the players
    count the walls the game counts, the player widgets are on the places of
    the cells the players are on, the filled widgets are the wall parts, and
    the board is finished exactly when the player whose turn it is stands on
    its goal row. *)
Theorem board_follows_game (b : Board) :
  board_reachable b → reachable (game b) ∧ board_in_sync b.
Proof. intros (Hr & Hs & _)%board_reachable_invariant. by split. Qed.

(** X15. No click crashes: on every board of the window a click on a cell
    or on a wall returns; the assertions of [receiveClick], [move_to],
    [add_wall] and [Board.addWall] hold, and no index or key is missing. *)
Theorem click_returns (b : Board) (w : BoardWidget) (item_position : Position) :
  board_reachable b → clickable w item_position →
  (receiveClick w item_position b).1 = inr tt.
Proof.
  intros Hb%board_reachable_invariant Hc.
  by destruct (board_invariant_click b w item_position Hb Hc) as (b' & -> & _).
Qed.

(** X16. The board ends the game: once the player whose turn it is stands
    on its goal row, a click changes nothing but the message; the game
    itself is never asked again. *)
Theorem won_board_is_frozen (b : Board) (w : BoardWidget) (item_position : Position) :
  board_reachable b →
  has_win (game b) None None = inr true →
  clickable w item_position →
  receiveClick w item_position b
  = (inr tt, set_message b (Some "It is over!"%string)).
Proof.
  intros (_ & Hs & _)%board_reachable_invariant Hw [_ Hv].
  destruct Hs as (_ & _ & _ & _ & _ & Hfin). apply Hfin in Hw.
  unfold receiveClick. rewrite Hw. by destruct w.
Qed.

(** X17. While the board is not finished no player stands on its goal
    row, and then [can_exit] is plain reachability: it answers [True] for a
    player exactly when a cell of its goal row can be reached from its cell,
    on any set of wall parts. *)
Theorem unfinished_board (b : Board) :
  board_reachable b → isFinished b = false →
  nobody_home (game b)
  ∧ ∀ i wp s win,
      players_positions (game b) !! i = Some s →
      PLAYER_HAS_WIN !! i = Some win →
      can_exit (game b) i wp = inr true
      ↔ ∃ t, rtc (edge wp) s t ∧ win t = true.
Proof.
  intros (Hr & _ & _ & _ & Hhome)%board_reachable_invariant Hf.
  specialize (Hhome Hf). split; [exact Hhome|].
  intros i wp s win Hs Hwin.
  apply reachable_invariant in Hr as (_ & _ & Hgrid & _).
  assert (in_grid s = true) as Hg.
  { apply Hgrid. apply list_elem_of_lookup. by exists i. }
  rewrite (can_exit_true_iff (game b) i wp s win Hs Hwin).
  split; intros (t & Ht & Hw); exists t; (split; [|exact Hw]).
  - apply tc_rtc. by apply tc_step_edge.
  - apply rtc_tc in Ht as [<-|Ht]; [|by apply tc_step_edge].
    rewrite (Hhome i s win Hs Hwin) in Hw. discriminate Hw.
Qed.

End board.

Section more_witnesses.

Lemma reachable_walls_state : reachable walls_state.
Proof. apply reachable_play; [apply reachable_init|vm_compute; reflexivity]. Qed.

Lemma reachable_meeting_state : reachable meeting_state.
Proof. apply reachable_play; [apply reachable_init|vm_compute; reflexivity]. Qed.

Lemma reachable_ghost_state : reachable ghost_state.
Proof. apply reachable_play; [apply reachable_init|vm_compute; reflexivity]. Qed.

Lemma wall_parts_grow_witness :
  new_wall_parts (7, 4) "h" ## wall_parts init
  ∧ size (wall_parts first_wall_state) = (size (wall_parts init) + 3)%nat.
Proof.
  apply (proj2 (wall_parts_grow (Move (7, 4)) init) (7, 4) "h" first_wall_state).
  vm_compute. reflexivity.
Defined.

Lemma reachable_wall_accounting_witness : wall_accounting walls_state.
Proof. apply reachable_wall_accounting. apply reachable_walls_state. Defined.

Lemma reachable_no_crash_witness :
  (∀ destination,
     if in_grid destination
     then ∃ r self', move_to destination corner_state = (inr r, self')
     else move_to destination corner_state = (inl AssertionError, corner_state))
  ∧ (∀ position hv,
       if in_grid position
          && (bool_decide (hv = "h"%string) || bool_decide (hv = "v"%string))
       then ∃ r self', add_wall position hv corner_state = (inr r, self')
       else add_wall position hv corner_state = (inl AssertionError, corner_state)).
Proof. apply reachable_no_crash. apply reachable_corner_state. Defined.

Lemma move_to_nothing_ghost_witness :
  (move_to (7, 4) ghost_state = (inr (Some ERROR_NOTHING), ghost_state)
   ↔ (7, 4) = ((8, 4) : Position))
  ∧ (move_to (7, 4) ghost_state = (inr (Some ERROR_GHOST), ghost_state)
     ↔ adjacent (8, 4) (7, 4)
       ∧ midpoint (fine (8, 4)) (fine (7, 4)) ∈ wall_parts ghost_state).
Proof.
  apply (move_to_nothing_ghost (7, 4) (8, 4) ghost_state);
    [reflexivity|vm_compute; reflexivity].
Defined.

Lemma straight_jump_rule_witness :
  (∃ self', move_to (5, 4) meeting_state = (inr None, self'))
  ↔ ((3, 4) + ((5, 4) - (3, 4)) // 2)%pos ∈ players_positions meeting_state
    ∧ (midpoint (fine (3, 4)) (fine ((3, 4) + ((5, 4) - (3, 4)) // 2)%pos)
       ∉ wall_parts meeting_state)
    ∧ (midpoint (fine ((3, 4) + ((5, 4) - (3, 4)) // 2)%pos) (fine (5, 4))
       ∉ wall_parts meeting_state).
Proof.
  apply (straight_jump_rule (5, 4) (3, 4) meeting_state);
    [reflexivity|reflexivity|vm_compute; reflexivity|vm_compute; reflexivity
    |vm_compute; lia|reflexivity|right; reflexivity].
Defined.

Lemma diagonal_jump_rule_witness :
  (∃ self', move_to (6, 3) scenario_b = (inr None, self'))
  ↔ ∃ enemy,
      enemy ∈ players_positions scenario_b
      ∧ adjacent (7, 4) enemy ∧ adjacent enemy (6, 3)
      ∧ step (wall_parts scenario_b) (7, 4) enemy
      ∧ (in_grid (behind (7, 4) enemy) = false
         ∨ ¬ step (wall_parts scenario_b) enemy (behind (7, 4) enemy))
      ∧ step (wall_parts scenario_b) enemy (6, 3).
Proof.
  apply (diagonal_jump_rule (6, 3) (7, 4) scenario_b);
    [reflexivity|reflexivity|reflexivity|simpl; lia|reflexivity|reflexivity].
Defined.

Lemma can_exit_fewer_walls_witness : can_exit init 0 ∅ = inr true.
Proof.
  apply (can_exit_fewer_walls init 0 ∅ (new_wall_parts (7, 4) "h"));
    [lia|apply empty_subseteq|vm_compute; reflexivity].
Defined.

Lemma wall_cuts_witness :
  midpoint (fine (7, 4)) (fine (8, 4)) ∈ new_wall_parts (7, 4) "h"
  ↔ ((7, 4) = ((7, 4) : Position) ∧ (8, 4) = ((7, 4) + (1, 0))%pos)
    ∨ ((8, 4) = ((7, 4) : Position) ∧ (7, 4) = ((7, 4) + (1, 0))%pos)
    ∨ ((7, 4) = ((7, 4) + (0, 1))%pos ∧ (8, 4) = ((7, 4) + (0, 1) + (1, 0))%pos)
    ∨ ((8, 4) = ((7, 4) + (0, 1))%pos ∧ (7, 4) = ((7, 4) + (0, 1) + (1, 0))%pos).
Proof. apply (wall_cuts (7, 4) (7, 4) (8, 4) "h"). reflexivity. Defined.

Lemma no_second_wall_witness :
  add_wall (7, 4) "v" (play [Move (1, 4); Move (8, 5)] first_wall_state)
  = (inr (Some ERROR_NO_WALL), play [Move (1, 4); Move (8, 5)] first_wall_state)
  ∨ add_wall (7, 4) "v" (play [Move (1, 4); Move (8, 5)] first_wall_state)
    = (inr (Some ERROR_WALL_INTERSECTION),
       play [Move (1, 4); Move (8, 5)] first_wall_state).
Proof.
  apply (no_second_wall (7, 4) "h" "v" init first_wall_state
           [Move (1, 4); Move (8, 5)]);
    [apply reachable_init|vm_compute; reflexivity|right; reflexivity].
Defined.

Lemma reachable_on_grid_witness :
  nb_players corner_state = 2%nat
  ∧ (index corner_state < 2)%nat
  ∧ ∃ p0 p1, players_positions corner_state = [p0; p1]
             ∧ in_grid p0 = true ∧ in_grid p1 = true.
Proof. apply reachable_on_grid. apply reachable_corner_state. Defined.

Lemma board_layout_witness :
  NoDup (generateBoardWidgets.*2)
  ∧ ∀ p, posToWidget first_board !! p
         = if in_layout p then Some (class_at p, None) else None.
Proof. apply (board_layout first_board). reflexivity. Defined.

Lemma clicks_fit_the_game_witness :
  (Widgets.Wall = Cell → cell_click_fits (15, 8))
  ∧ (Widgets.Wall = Widgets.Wall → wall_click_fits (15, 8)).
Proof. apply (clicks_fit_the_game Widgets.Wall (15, 8)). decide_by_compute. Defined.

Lemma clickable_two_clicks : Forall (λ c, clickable c.1 c.2) two_clicks.
Proof.
  repeat apply Forall_cons_2; [..|apply Forall_nil_2];
    (split; [decide_by_compute|discriminate]).
Qed.

Lemma clickable_winning_clicks : Forall (λ c, clickable c.1 c.2) winning_clicks.
Proof.
  apply Forall_fmap, Forall_forall. intros p Hp. split; [|discriminate].
  revert p Hp. apply Forall_forall. apply (bool_decide_unpack _). vm_compute. exact I.
Qed.

Lemma board_reachable_played : board_reachable played_board.
Proof.
  apply board_reachable_click_all;
    [apply board_reachable_first|apply clickable_two_clicks].
Qed.

Lemma board_reachable_won : board_reachable won_board.
Proof.
  apply board_reachable_click_all;
    [apply board_reachable_first|apply clickable_winning_clicks].
Qed.

Lemma board_follows_game_witness :
  reachable (game played_board) ∧ board_in_sync played_board.
Proof. apply board_follows_game. apply board_reachable_played. Defined.

Lemma click_returns_witness :
  (receiveClick Widgets.Wall (14, 9) played_board).1 = inr tt.
Proof.
  apply (click_returns played_board Widgets.Wall (14, 9));
    [apply board_reachable_played|].
  split; [decide_by_compute|discriminate].
Defined.

Lemma won_board_is_frozen_witness :
  receiveClick Cell (0, 10) won_board
  = (inr tt, set_message won_board (Some "It is over!"%string)).
Proof.
  apply (won_board_is_frozen won_board Cell (0, 10));
    [apply board_reachable_won|vm_compute; reflexivity|].
  split; [decide_by_compute|discriminate].
Defined.

Lemma unfinished_board_witness :
  nobody_home (game played_board)
  ∧ ∀ i wp s win,
      players_positions (game played_board) !! i = Some s →
      PLAYER_HAS_WIN !! i = Some win →
      can_exit (game played_board) i wp = inr true
      ↔ ∃ t, rtc (edge wp) s t ∧ win t = true.
Proof.
  apply (unfinished_board played_board);
    [apply board_reachable_played|vm_compute; reflexivity].
Defined.

End more_witnesses.
